(** * A retry executor and its backoff strategies

    Shallow embedding of the Go package [retry] (files [retry.go],
    [backoff.go], [do.go] and [errors.go]) and the properties of its retry
    loop and of its delay computations.

    Conventions of the embedding:
    - Go's [int], [int64] and [time.Duration] are integers of 64 bits; they
      are values of [Z] and every arithmetic operation of the source is
      followed by the wrap-around [wrap64];
    - [float64] is an interface ([Float64]) with two implementations: the
      IEEE-754 binary64 numbers of the kernel ([IEEE]) and exact rationals
      ([Exact]);
    - the package-level random source, the caller's closures and the
      context are threaded explicitly as state;
    - an [error] is a tree of wrappers, [nil] is [None]. *)

From Stdlib Require Import ZArith QArith Qpower Qround Bool List Lia Lqa String.
From Stdlib Require Import Uint63 PrimFloat FloatOps SpecFloat.
Import ListNotations.

Open Scope bool_scope.
Open Scope Z_scope.

(** ** Machine integers *)

Module Int64.

Definition min_int : Z := - 2 ^ 63.
Definition max_int : Z := 2 ^ 63 - 1.

Definition in_range (z : Z) : Prop := min_int <= z <= max_int.

Definition in_rangeb (z : Z) : bool := (min_int <=? z) && (z <=? max_int).

(** Two's complement wrap-around of a mathematical result. *)
Definition wrap64 (z : Z) : Z := (z + 2 ^ 63) mod 2 ^ 64 - 2 ^ 63.

Definition add (a b : Z) : Z := wrap64 (a + b).
Definition mul (a b : Z) : Z := wrap64 (a * b).

(** [attempt++] *)
Definition incr (a : Z) : Z := add a 1.

End Int64.

(** ** Floating point numbers *)

(** The operations of [float64] that the package uses.  [ofInt] is the
    conversion [float64(x)] of an integer, [toInt] the conversion
    [time.Duration(x)] of a float (the fraction is discarded), [fpow] is
    [math.Pow], and [fle], [flt] are the comparisons [<=] and [<]. *)
Class Float64 : Type := {
  F : Type;
  ofInt : Z -> F;
  toInt : F -> Z;
  fadd : F -> F -> F;
  fsub : F -> F -> F;
  fmul : F -> F -> F;
  fpow : F -> F -> F;
  fle : F -> F -> bool;
  flt : F -> F -> bool;
  (** the float64 of a constant of the source text *)
  fconst : Q -> F
}.

(** [x > y] and [x >= y] of the source. *)
Definition fgt `{Float64} (x y : F) : bool := flt y x.
Definition fge `{Float64} (x y : F) : bool := fle y x.

(** *** IEEE-754 binary64 *)

Module Binary64.

Definition of_nonneg (z : Z) : float := PrimFloat.of_uint63 (Uint63.of_Z z).

(** Conversion of a 64-bit integer, rounding to nearest even.  The
    magnitude of [min_int] does not fit the 63-bit unsigned integers and
    is built from an exact product. *)
Definition of_int64 (z : Z) : float :=
  if 0 <=? z then of_nonneg z
  else if z =? Int64.min_int
       then PrimFloat.opp (PrimFloat.mul (of_nonneg (2 ^ 62)) (of_nonneg 2))
       else PrimFloat.opp (of_nonneg (- z)).

(** Conversion to a 64-bit integer: truncation toward zero.  The result
    for a value outside the range, an infinity or a NaN depends on the
    machine; the one of amd64 is taken ([min_int]). *)
Definition to_int64 (x : float) : Z :=
  match Prim2SF x with
  | S754_zero _ => 0
  | S754_finite s m e =>
      let v := if 0 <=? e then Z.shiftl (Z.pos m) e
               else Z.shiftr (Z.pos m) (- e) in
      let r := if s then - v else v in
      if Int64.in_rangeb r then r else Int64.min_int
  | S754_infinity _ => Int64.min_int
  | S754_nan => Int64.min_int
  end.

(** The float64 nearest to a ratio of two integers that are floats
    themselves: one correctly rounded division. *)
Definition of_Q (q : Q) : float :=
  PrimFloat.div (of_int64 (Qnum q)) (of_int64 (Z.pos (Qden q))).

(** [math.Pow] belongs to Go's library.  Its documented special case
    [Pow(x, ±0) = 1] and, for an integral exponent, the repeated product
    are what this stand-in computes; the package only ever passes the
    conversion of an attempt number as exponent. *)
Fixpoint pow_nat (x : float) (n : nat) : float :=
  match n with
  | O => PrimFloat.one
  | S k => PrimFloat.mul x (pow_nat x k)
  end.

Definition pow (x y : float) : float :=
  let n := to_int64 y in
  if 0 <=? n then pow_nat x (Z.to_nat n)
  else PrimFloat.div PrimFloat.one (pow_nat x (Z.to_nat (- n))).

End Binary64.

#[export] Instance IEEE : Float64 := {|
  F := float;
  ofInt := Binary64.of_int64;
  toInt := Binary64.to_int64;
  fadd := PrimFloat.add;
  fsub := PrimFloat.sub;
  fmul := PrimFloat.mul;
  fpow := Binary64.pow;
  fle := PrimFloat.leb;
  flt := PrimFloat.ltb;
  fconst := Binary64.of_Q
|}.

(** *** Exact arithmetic *)

(** Floats as rationals: no rounding, no infinities and no bound on the
    integer that a conversion gives. *)
Module Rational.

(** Truncation toward zero. *)
Definition trunc (q : Q) : Z := Z.quot (Qnum q) (Z.pos (Qden q)).

Definition leb (x y : Q) : bool := Qle_bool x y.
Definition ltb (x y : Q) : bool := negb (Qle_bool y x).

(** The exponent of the source is always the conversion of an integer. *)
Definition pow (x y : Q) : Q := Qpower x (trunc y).

End Rational.

Definition Exact : Float64 := {|
  F := Q;
  ofInt := inject_Z;
  toInt := Rational.trunc;
  fadd := Qplus;
  fsub := Qminus;
  fmul := Qmult;
  fpow := Rational.pow;
  fle := Rational.leb;
  flt := Rational.ltb;
  fconst := fun q => q
|}.

(** Arithmetic without rounding: every float stands for a rational
    number, [val], and each operation is the operation on rationals.  The
    exponent of [fpow] is only ever the conversion of an integer.  [Exact]
    is such an arithmetic; [IEEE] is not, it rounds. *)
Class ExactArith (FL : Float64) (val : F -> Q) : Prop := {
  val_ofInt : forall z : Z, (val (ofInt z) == inject_Z z)%Q;
  val_add : forall x y : F, (val (fadd x y) == val x + val y)%Q;
  val_sub : forall x y : F, (val (fsub x y) == val x - val y)%Q;
  val_mul : forall x y : F, (val (fmul x y) == val x * val y)%Q;
  val_pow : forall (x : F) (n : Z),
    (val (fpow x (ofInt n)) == Qpower (val x) n)%Q;
  val_le : forall x y : F, fle x y = true <-> (val x <= val y)%Q;
  val_lt : forall x y : F, flt x y = true <-> (val x < val y)%Q;
  val_toInt : forall x : F, toInt x = Rational.trunc (val x)
}.

(** ** The random source *)

(** [rand.Float64] reads the package-level generator of [math/rand/v2]:
    the generator is the sequence of its future draws and a position. *)
Record Rand `{Float64} : Type := mkRand {
  draws : nat -> F;
  pos : nat
}.

Arguments mkRand {_} _ _.

Definition rand_Float64 `{Float64} (g : Rand) : F * Rand :=
  (draws g (pos g), mkRand (draws g) (S (pos g))).

(** ** Backoff strategies ([backoff.go]) *)

Definition Duration : Type := Z.

Definition Second : Duration := 1000000000.

Section Backoff.

Context `{FL : Float64}.

(** [addJitter]: the guard, then one draw and the scaled duration. *)
Definition addJitter (d : Duration) (jitter : F) (g : Rand)
  : Duration * Rand :=
  if fle jitter (ofInt 0) || fge jitter (ofInt 1) then (d, g)
  else
    let (r, g') := rand_Float64 g in
    let delta := fmul (fsub (fmul r (ofInt 2)) (ofInt 1)) jitter in
    (toInt (fmul (ofInt d) (fadd (ofInt 1) delta)), g').

(** The interface [Backoff]. *)
Class Backoff (B : Type) : Type := {
  Next : B -> Z -> Rand -> Duration * Rand
}.

Record FixedBackoff : Type := {
  Interval : Duration;
  fixedJitter : F
}.

Definition FixedBackoff_Next (f : FixedBackoff) (attempt : Z) (g : Rand)
  : Duration * Rand :=
  addJitter (Interval f) (fixedJitter f) g.

Record LinearBackoff : Type := {
  linBase : Duration;
  linStep : Duration;
  linMax : Duration;
  linJitter : F
}.

(** [l.Base + time.Duration(attempt)*l.Step] *)
Definition linear_delay (l : LinearBackoff) (attempt : Z) : Duration :=
  Int64.add (linBase l) (Int64.mul attempt (linStep l)).

Definition LinearBackoff_Next (l : LinearBackoff) (attempt : Z) (g : Rand)
  : Duration * Rand :=
  let d := linear_delay l attempt in
  if (0 <? linMax l) && (linMax l <? d) then (linMax l, g)
  else addJitter d (linJitter l) g.

Record ExponentialBackoff : Type := {
  expBase : Duration;
  expFactor : F;
  expMax : Duration;
  expJitter : F
}.

(** [float64(e.Base) * math.Pow(e.Factor, float64(attempt))] *)
Definition exponential_delay (e : ExponentialBackoff) (attempt : Z) : F :=
  fmul (ofInt (expBase e)) (fpow (expFactor e) (ofInt attempt)).

Definition ExponentialBackoff_Next (e : ExponentialBackoff) (attempt : Z)
  (g : Rand) : Duration * Rand :=
  let d := exponential_delay e attempt in
  if (0 <? expMax e) && fgt d (ofInt (expMax e)) then (expMax e, g)
  else addJitter (toInt d) (expJitter e) g.

#[export] Instance Backoff_Fixed : Backoff FixedBackoff :=
  {| Next := FixedBackoff_Next |}.
#[export] Instance Backoff_Linear : Backoff LinearBackoff :=
  {| Next := LinearBackoff_Next |}.
#[export] Instance Backoff_Exponential : Backoff ExponentialBackoff :=
  {| Next := ExponentialBackoff_Next |}.

(** The guard of [addJitter]. *)
Definition jitter_disabled (jitter : F) : bool :=
  fle jitter (ofInt 0) || fge jitter (ofInt 1).

End Backoff.

(** ** Errors ([errors.go], and the values of [context] and [fmt]) *)

(** An [error] value of Go.  [Opaque] is an error of the caller, told
    apart by [id]; [Canceled] and [DeadlineExceeded] are the two values of
    package [context]; [UnretryableError] is the pointer to the struct of
    this package, its field may be [nil]; [wrapError] is what [fmt.Errorf]
    builds for a format with [%w]: the formatted message and the operand. *)
#[warnings="-register-all"]
Inductive error : Type :=
| Opaque (id : nat) (msg : string)
| Canceled
| DeadlineExceeded
| UnretryableError (err : option error)
| wrapError (msg : string) (err : option error).

Fixpoint error_eqb (a b : error) : bool :=
  match a, b with
  | Opaque i m, Opaque j n => Nat.eqb i j && String.eqb m n
  | Canceled, Canceled => true
  | DeadlineExceeded, DeadlineExceeded => true
  | UnretryableError x, UnretryableError y =>
      match x, y with
      | None, None => true
      | Some x', Some y' => error_eqb x' y'
      | _, _ => false
      end
  | wrapError m x, wrapError n y =>
      String.eqb m n &&
      match x, y with
      | None, None => true
      | Some x', Some y' => error_eqb x' y'
      | _, _ => false
      end
  | _, _ => false
  end.

(** The method [Error]; [%v] and [%w] print a nil operand in their own
    ways. *)
Fixpoint Error (e : error) : string :=
  match e with
  | Opaque _ msg => msg
  | Canceled => "context canceled"
  | DeadlineExceeded => "context deadline exceeded"
  | UnretryableError err =>
      "unretryable error: " ++
      match err with Some c => Error c | None => "<nil>" end
  | wrapError msg _ => msg
  end.

(** [errors.Unwrap] *)
Definition Unwrap (e : error) : option error :=
  match e with
  | UnretryableError err => err
  | wrapError _ err => err
  | _ => None
  end.

(** [errors.As(err, &e)] for [e] of type [*UnretryableError]: the first
    error of the chain of that type. *)
Fixpoint As_Unretryable (e : error) : option error :=
  match e with
  | UnretryableError _ => Some e
  | wrapError _ (Some c) => As_Unretryable c
  | _ => None
  end.

(** [errors.Is(err, target)] *)
Fixpoint Is (e target : error) : bool :=
  error_eqb e target ||
  match e with
  | UnretryableError (Some c) => Is c target
  | wrapError _ (Some c) => Is c target
  | _ => false
  end.

Definition IsUnretryable (err : option error) : bool :=
  match err with
  | None => false
  | Some e => match As_Unretryable e with Some _ => true | None => false end
  end.

Definition newUnretryableError (err : option error) : option error :=
  match err with
  | None => None
  | Some _ => Some (UnretryableError err)
  end.

(** [fmt.Errorf("all attempts failed: %w", err)] *)
Definition all_attempts_failed (err : option error) : error :=
  wrapError
    ("all attempts failed: " ++
     match err with Some c => Error c | None => "%!w(<nil>)" end)
    err.

(** ** The retry loop ([retry.go], [do.go]) *)

(** Which channel of the [select] was received from. *)
Inductive wait_result : Type :=
| TimerFired
| DoneFired.

(** What the loop does to its collaborators, in order. *)
Inductive event : Type :=
| EvCtxErr (r : option error)
| EvAttempt (attempt : Z) (r : option error)
| EvIsRetryable (e : error) (b : bool)
| EvNext (attempt : Z) (d : Duration)
| EvWait (d : Duration) (r : wait_result).

(** The [return] statement that ended [Do]. *)
Inductive exit_point : Type :=
| ReturnCtxErr        (* return ctxErr *)
| ReturnNil           (* return nil *)
| ReturnUnretryable   (* return newUnretryableError(err) *)
| ReturnCtxDone       (* return ctx.Err() *)
| ReturnAllFailed.    (* return fmt.Errorf(...) *)

Section Executor.

Context `{FL : Float64}.

(** Everything outside the loop: the variables captured by the caller's
    closures, the context and the clock, the random source. *)
Variable W : Type.

Definition AttemptFunc : Type := Z -> W -> option error * W.
Definition IsRetryableFunc : Type := option error -> W -> bool * W.
Definition BackoffFunc : Type := Z -> W -> Duration * W.

(** [context.Context], as far as the loop uses it: [Err], and the race of
    [Done] against a timer of the given duration. *)
Record Context : Type := {
  ctx_Err : W -> option error * W;
  ctx_select : Duration -> W -> wait_result * W
}.

Record retrier : Type := mkRetrier {
  backoff : BackoffFunc;
  maxAttempts : Z;
  isRetryable : option IsRetryableFunc
}.

Record result : Type := mkResult {
  ret : option error;
  exit : exit_point;
  trace : list event;
  world : W
}.

Definition emit (evs : list event) (r : option result) : option result :=
  match r with
  | None => None
  | Some r =>
      Some (mkResult (ret r) (exit r) (evs ++ trace r) (world r))
  end.

(** The [select] statement and what follows it in one iteration. *)
Definition wait_step (r : retrier) (ctx : Context) (attempt : Z) (w : W)
  (continue : W -> option result) : option result :=
  let (d, w1) := backoff r attempt w in
  let (s, w2) := ctx_select ctx d w1 in
  match s with
  | DoneFired =>
      let (ce, w3) := ctx_Err ctx w2 in
      Some (mkResult ce ReturnCtxDone
              [EvNext attempt d; EvWait d DoneFired; EvCtxErr ce] w3)
  | TimerFired =>
      emit [EvNext attempt d; EvWait d TimerFired] (continue w2)
  end.

(** The [for] statement of [Do].  [err] is the variable of that name;
    [None] is a loop that has not ended within [fuel] iterations. *)
Fixpoint Do_loop (r : retrier) (ctx : Context) (f : AttemptFunc)
  (fuel : nat) (attempt : Z) (err : option error) (w : W)
  : option result :=
  match fuel with
  | O => None
  | S fuel' =>
      if (maxAttempts r =? 0) || (attempt <? maxAttempts r) then
        let (ctxErr, w1) := ctx_Err ctx w in
        match ctxErr with
        | Some _ => Some (mkResult ctxErr ReturnCtxErr [EvCtxErr ctxErr] w1)
        | None =>
            let (err', w2) := f attempt w1 in
            match err' with
            | None =>
                Some (mkResult None ReturnNil
                        [EvCtxErr None; EvAttempt attempt None] w2)
            | Some e =>
                let continue w' :=
                  Do_loop r ctx f fuel' (Int64.incr attempt) err' w' in
                match isRetryable r with
                | None =>
                    emit [EvCtxErr None; EvAttempt attempt err']
                      (wait_step r ctx attempt w2 continue)
                | Some p =>
                    let (b, w3) := p err' w2 in
                    if negb b then
                      Some (mkResult (newUnretryableError err')
                              ReturnUnretryable
                              [EvCtxErr None; EvAttempt attempt err';
                               EvIsRetryable e false] w3)
                    else
                      emit [EvCtxErr None; EvAttempt attempt err';
                            EvIsRetryable e true]
                        (wait_step r ctx attempt w3 continue)
                end
            end
        end
      else
        Some (mkResult (Some (all_attempts_failed err)) ReturnAllFailed [] w)
  end.

(** The method [Do] of [retrier]. *)
Definition retrier_Do (r : retrier) (ctx : Context) (f : AttemptFunc)
  (fuel : nat) (w : W) : option result :=
  Do_loop r ctx f fuel 0 None w.

(** *** Construction *)

(** Where the random source lives in the world. *)
Variable getRand : W -> Rand.
Variable setRand : Rand -> W -> W.

(** A value of a type with a method [Next], as a [Backoff] of the loop. *)
Definition asBackoff {B : Type} {BI : Backoff B} (b : B) : BackoffFunc :=
  fun attempt w =>
    let (d, g) := Next b attempt (getRand w) in (d, setRand g w).

Definition RetryOption : Type := retrier -> retrier.

Definition defaultAttempts : Z := 3.

Definition defaultBackoff : BackoffFunc :=
  asBackoff {| linBase := Second; linStep := Second;
               linMax := 10 * Second; linJitter := fconst (1 # 10) |}.

Definition defaultIsRetryableFunc : IsRetryableFunc :=
  fun err w =>
    (match err with Some _ => true | None => false end, w).

Definition New (opts : list RetryOption) : retrier :=
  fold_left (fun r opt => opt r) opts
    (mkRetrier defaultBackoff defaultAttempts (Some defaultIsRetryableFunc)).

Definition WithMaxAttempts (n : Z) : RetryOption :=
  fun r => mkRetrier (backoff r) n (isRetryable r).

Definition WithBackoff (b : BackoffFunc) : RetryOption :=
  fun r => mkRetrier b (maxAttempts r) (isRetryable r).

Definition WithIsRetryableFunc (p : option IsRetryableFunc) : RetryOption :=
  fun r => mkRetrier (backoff r) (maxAttempts r) p.

(** The function [Do] of the package. *)
Definition Do (ctx : Context) (maxAttempts : Z) (f : AttemptFunc)
  (fuel : nat) (w : W) : option result :=
  retrier_Do (New [WithMaxAttempts maxAttempts]) ctx f fuel w.

End Executor.

Arguments AttemptFunc W : clear implicits.
Arguments ctx_Err {W} _ _.
Arguments ctx_select {W} _ _ _.
Arguments mkRetrier {W} _ _ _.
Arguments backoff {W} _ _ _.
Arguments maxAttempts {W} _.
Arguments isRetryable {W} _.
Arguments mkResult {W} _ _ _ _.
Arguments ret {W} _.
Arguments exit {W} _.
Arguments trace {W} _.
Arguments world {W} _.
Arguments emit {W} _ _.
Arguments wait_step {W} _ _ _ _ _.
Arguments Do_loop {W} _ _ _ _ _ _ _.
Arguments retrier_Do {W} _ _ _ _ _.
Arguments asBackoff {FL W} _ _ {B BI} _ _ _.
Arguments New {FL W} _ _ _.
Arguments WithMaxAttempts {W} _ _.
Arguments WithBackoff {W} _ _.
Arguments WithIsRetryableFunc {W} _ _.
Arguments Do {FL W} _ _ _ _ _ _ _.

(** ** Reading a trace *)

(** The invocations of the operation: attempt number and result. *)
Fixpoint attempts (tr : list event) : list (Z * option error) :=
  match tr with
  | [] => []
  | EvAttempt n r :: rest => (n, r) :: attempts rest
  | _ :: rest => attempts rest
  end.

(** The attempt numbers the operation was invoked with, in order. *)
Definition attempt_indices (tr : list event) : list Z :=
  map fst (attempts tr).

(** [k] consecutive attempt numbers. *)
Fixpoint count_from (start : Z) (k : nat) : list Z :=
  match k with
  | O => []
  | S k' => start :: count_from (start + 1) k'
  end.

Definition is_wait (ev : event) : bool :=
  match ev with EvWait _ _ => true | _ => false end.

Definition is_next (ev : event) : bool :=
  match ev with EvNext _ _ => true | _ => false end.

Definition is_predicate (ev : event) : bool :=
  match ev with EvIsRetryable _ _ => true | _ => false end.

Definition count_waits (tr : list event) : nat :=
  List.length (filter is_wait tr).

Definition count_next (tr : list event) : nat :=
  List.length (filter is_next tr).

Definition count_predicate (tr : list event) : nat :=
  List.length (filter is_predicate tr).

(** Every invocation of the operation comes right after a poll of the
    context that found it not canceled.  [polled] tells whether the event
    before the list was such a poll. *)
Fixpoint polled_before_attempts (polled : bool) (tr : list event) : bool :=
  match tr with
  | [] => true
  | EvAttempt _ _ :: rest => polled && polled_before_attempts false rest
  | EvCtxErr None :: rest => polled_before_attempts true rest
  | _ :: rest => polled_before_attempts false rest
  end.

(** The verdict on a failure: a nil predicate retries everything. *)
Definition verdict {W : Type} (r : retrier W) (e : error) (w : W)
  : bool * W :=
  match isRetryable r with
  | None => (true, w)
  | Some p => p (Some e) w
  end.

(** The events of the predicate in one iteration. *)
Definition verdict_events {W : Type} (r : retrier W) (e : error) (b : bool)
  : list event :=
  match isRetryable r with
  | None => []
  | Some _ => [EvIsRetryable e b]
  end.

(** The loop condition of [Do]. *)
Definition attempts_remain {W : Type} (r : retrier W) (attempt : Z) : bool :=
  (maxAttempts r =? 0) || (attempt <? maxAttempts r).

(** ** A world to run the loop in *)

(** A context with an optional deadline on a virtual clock, as
    [context.WithTimeout] over [context.Background] gives one: the clock
    advances by the waits only, and the random source is IEEE. *)
Module Sim.

Record world : Type := mkWorld {
  rng : @Rand IEEE;
  clock : Z;
  deadline : option Z;
  calls : nat
}.

Definition expired (w : world) : bool :=
  match deadline w with
  | Some t => t <=? clock w
  | None => false
  end.

Definition Err (w : world) : option error * world :=
  (if expired w then Some DeadlineExceeded else None, w).

Definition select (d : Duration) (w : world) : wait_result * world :=
  if expired w then (DoneFired, w)
  else
    let t := clock w + Z.max 0 d in
    match deadline w with
    | Some dl =>
        if dl <=? t
        then (DoneFired, mkWorld (rng w) dl (deadline w) (calls w))
        else (TimerFired, mkWorld (rng w) t (deadline w) (calls w))
    | None => (TimerFired, mkWorld (rng w) t (deadline w) (calls w))
    end.

Definition ctx : Context world :=
  {| ctx_Err := Err; ctx_select := select |}.

(** [context.Background]: never canceled, whatever the world. *)
Definition background : Context world :=
  {| ctx_Err := fun w => (None, w);
     ctx_select := fun d w =>
       (TimerFired,
        mkWorld (rng w) (clock w + Z.max 0 d) (deadline w) (calls w)) |}.

Definition getRand (w : world) : Rand := rng w.
Definition setRand (g : Rand) (w : world) : world :=
  mkWorld g (clock w) (deadline w) (calls w).

(** A source whose every draw is one half: the jitter term is zero. *)
Definition halves : @Rand IEEE := mkRand (fun _ => 0.5%float) 0.

Definition start (dl : option Z) : world := mkWorld halves 0 dl 0.

Definition boom : error := Opaque 1 "boom".

(** An operation that counts its invocations and fails each time with
    the error [e]. *)
Definition failing (e : error) : AttemptFunc world :=
  fun _ w =>
    (Some e, mkWorld (rng w) (clock w) (deadline w) (S (calls w))).

(** An operation that fails until the attempt numbered [n]. *)
Definition succeeds_at (n : Z) : AttemptFunc world :=
  fun attempt w =>
    (if attempt =? n then None else Some boom,
     mkWorld (rng w) (clock w) (deadline w) (S (calls w))).

Definition never : IsRetryableFunc world := fun _ w => (false, w).
Definition always : IsRetryableFunc world := fun _ w => (true, w).

(** A fixed backoff of one second without jitter. *)
Definition one_second : BackoffFunc world :=
  asBackoff getRand setRand
    {| Interval := Second; fixedJitter := ofInt 0 |}.

Definition retrier_of (n : Z) (p : option (IsRetryableFunc world))
  : retrier world :=
  mkRetrier one_second n p.

End Sim.

(** What a run in unbounded mode may end with: never the last statement
    of [Do]; otherwise success, the wrapper of an unretryable failure, or
    the value that the last call of [ctx.Err] returned. *)
Definition unbounded_outcome {W : Type} (res : result W) : Prop :=
  match exit res with
  | ReturnAllFailed => False
  | ReturnNil => ret res = None
  | ReturnUnretryable =>
      exists e : error, ret res = Some (UnretryableError (Some e))
  | ReturnCtxErr | ReturnCtxDone =>
      exists tr : list event, trace res = tr ++ [EvCtxErr (ret res)]
  end.

(** ** Telling the failures apart *)

(** The three ways [Do] fails. *)
Inductive failure_shape : Type :=
| ShapeCanceled
| ShapeUnretryable
| ShapeExhausted.

Definition shape_of_exit (x : exit_point) : option failure_shape :=
  match x with
  | ReturnCtxErr => Some ShapeCanceled
  | ReturnCtxDone => Some ShapeCanceled
  | ReturnUnretryable => Some ShapeUnretryable
  | ReturnAllFailed => Some ShapeExhausted
  | ReturnNil => None
  end.

(** What the value itself is, without a look at its cause or message:
    one of the two errors of [context], a pointer to an
    [UnretryableError], or a wrapper built by [fmt.Errorf]. *)
Definition top_shape (e : error) : option failure_shape :=
  match e with
  | Canceled => Some ShapeCanceled
  | DeadlineExceeded => Some ShapeCanceled
  | UnretryableError _ => Some ShapeUnretryable
  | wrapError _ _ => Some ShapeExhausted
  | Opaque _ _ => None
  end.

(** [errors.Is(err, context.Canceled) ||
     errors.Is(err, context.DeadlineExceeded)] *)
Definition is_context_error (err : option error) : bool :=
  match err with
  | None => false
  | Some e => Is e Canceled || Is e DeadlineExceeded
  end.

(** The tests by unwrapping that a caller has: [IsUnretryable] of this
    package and [errors.Is] against the errors of [context]. *)
Definition marks (err : option error) : bool * bool :=
  (IsUnretryable err, is_context_error err).

(** An error of the operation that carries neither mark. *)
Definition unmarked (e : error) : Prop :=
  IsUnretryable (Some e) = false /\ is_context_error (Some e) = false.

Definition context_error (e : error) : Prop :=
  e = Canceled \/ e = DeadlineExceeded.

(** What a run returns, by the statement it ends at; [P] holds of the
    failures of the operation and [C] of the errors of the context. *)
Definition returned_as {W : Type} (P C : error -> Prop) (res : result W)
  : Prop :=
  match exit res with
  | ReturnNil => ret res = None
  | ReturnUnretryable =>
      exists e : error, P e /\ ret res = Some (UnretryableError (Some e))
  | ReturnAllFailed =>
      exists last : option error,
        (forall e : error, last = Some e -> P e) /\
        ret res = Some (all_attempts_failed last)
  | ReturnCtxErr | ReturnCtxDone =>
      forall ce : error, ret res = Some ce -> C ce
  end.

(** ** Configurations of the documentation, in IEEE arithmetic *)

Module Cases.

(** The default backoff of [New]. *)
Definition linear : @LinearBackoff IEEE :=
  {| linBase := Second; linStep := Second; linMax := 10 * Second;
     linJitter := fconst (1 # 10) |}.

Definition exponential : @ExponentialBackoff IEEE :=
  {| expBase := Second; expFactor := ofInt 2; expMax := 30 * Second;
     expJitter := fconst (2 # 10) |}.

(** The same without jitter. *)
Definition exponential_plain : @ExponentialBackoff IEEE :=
  {| expBase := Second; expFactor := ofInt 2; expMax := 30 * Second;
     expJitter := ofInt 0 |}.

(** A base above the cap. *)
Definition exponential_low_cap : @ExponentialBackoff IEEE :=
  {| expBase := 10 * Second; expFactor := ofInt 2; expMax := 5 * Second;
     expJitter := ofInt 0 |}.

(** A source whose every draw is zero, the least value of
    [rand.Float64]. *)
Definition zeros : @Rand IEEE := mkRand (fun _ => ofInt 0) 0.

(** One eighth, a jitter fraction that is a float exactly. *)
Definition eighth : @F IEEE := fconst (1 # 8).

End Cases.

(** ** Configurations in exact arithmetic *)

Module ExactCases.

Definition source : @Rand Exact := @mkRand Exact (fun _ => (1 # 4)%Q) 0.

Definition zeros : @Rand Exact := @mkRand Exact (fun _ => 0%Q) 0.

Definition fixed : @FixedBackoff Exact :=
  @Build_FixedBackoff Exact Second 0%Q.

Definition linear : @LinearBackoff Exact :=
  @Build_LinearBackoff Exact Second Second (10 * Second) 0%Q.

Definition exponential : @ExponentialBackoff Exact :=
  @Build_ExponentialBackoff Exact Second (3 # 2)%Q (30 * Second) 0%Q.

Definition exponential_low_cap : @ExponentialBackoff Exact :=
  @Build_ExponentialBackoff Exact (10 * Second) 2%Q (5 * Second) 0%Q.

End ExactCases.

(** ** The runs of the loop, as a relation *)

Section Runs.

Context {W : Type}.
Variables (r : retrier W) (ctx : Context W) (f : AttemptFunc W).

(** The events of an iteration that fails with [e], is judged retryable
    and waits [d]; [s] tells how the wait ended. *)
Definition iteration (attempt : Z) (e : error) (d : Duration)
  (s : wait_result) : list event :=
  [EvCtxErr None; EvAttempt attempt (Some e)] ++
  verdict_events r e true ++ [EvNext attempt d; EvWait d s].

(** [Run attempt err w res]: entered with the attempt number [attempt],
    the variable [err] and the world [w], the [for] statement of [Do]
    ends with [res].  One rule per way through an iteration. *)
Inductive Run : Z -> option error -> W -> result W -> Prop :=
| Run_exhausted (attempt : Z) (err : option error) (w : W) :
    attempts_remain r attempt = false ->
    Run attempt err w
      (mkResult (Some (all_attempts_failed err)) ReturnAllFailed [] w)
| Run_canceled (attempt : Z) (err : option error) (w w1 : W) (ce : error) :
    attempts_remain r attempt = true ->
    ctx_Err ctx w = (Some ce, w1) ->
    Run attempt err w
      (mkResult (Some ce) ReturnCtxErr [EvCtxErr (Some ce)] w1)
| Run_success (attempt : Z) (err : option error) (w w1 w2 : W) :
    attempts_remain r attempt = true ->
    ctx_Err ctx w = (None, w1) ->
    f attempt w1 = (None, w2) ->
    Run attempt err w
      (mkResult None ReturnNil [EvCtxErr None; EvAttempt attempt None] w2)
| Run_unretryable (attempt : Z) (err : option error) (w w1 w2 w3 : W)
    (e : error) :
    attempts_remain r attempt = true ->
    ctx_Err ctx w = (None, w1) ->
    f attempt w1 = (Some e, w2) ->
    verdict r e w2 = (false, w3) ->
    Run attempt err w
      (mkResult (Some (UnretryableError (Some e))) ReturnUnretryable
         [EvCtxErr None; EvAttempt attempt (Some e); EvIsRetryable e false]
         w3)
| Run_wait_canceled (attempt : Z) (err : option error)
    (w w1 w2 w3 w4 w5 w6 : W) (e : error) (d : Duration)
    (ce : option error) :
    attempts_remain r attempt = true ->
    ctx_Err ctx w = (None, w1) ->
    f attempt w1 = (Some e, w2) ->
    verdict r e w2 = (true, w3) ->
    backoff r attempt w3 = (d, w4) ->
    ctx_select ctx d w4 = (DoneFired, w5) ->
    ctx_Err ctx w5 = (ce, w6) ->
    Run attempt err w
      (mkResult ce ReturnCtxDone
         (iteration attempt e d DoneFired ++ [EvCtxErr ce]) w6)
| Run_retry (attempt : Z) (err : option error) (w w1 w2 w3 w4 w5 : W)
    (e : error) (d : Duration) (res : result W) :
    attempts_remain r attempt = true ->
    ctx_Err ctx w = (None, w1) ->
    f attempt w1 = (Some e, w2) ->
    verdict r e w2 = (true, w3) ->
    backoff r attempt w3 = (d, w4) ->
    ctx_select ctx d w4 = (TimerFired, w5) ->
    Run (Int64.incr attempt) (Some e) w5 res ->
    Run attempt err w
      (mkResult (ret res) (exit res)
         (iteration attempt e d TimerFired ++ trace res) (world res)).

End Runs.

(** ** The order of the calls *)

(** Where the loop stands between two calls. *)
Inductive phase : Type :=
| AtPoll (n : Z)
| AtAttempt (n : Z)
| AtVerdict (n : Z) (e : error)
| AtNext (n : Z)
| AtWait (n : Z) (d : Duration)
| AtLastErr
| Finished.

(** The traces that follow the text of [Do] from a phase on.
    [has_predicate] tells whether [isRetryable] is set and [remain] is the
    loop condition: a trace may stop before a poll only when no attempt
    remains, and goes on from there only when one does. *)
Fixpoint conforms (has_predicate : bool) (remain : Z -> bool) (ph : phase)
  (tr : list event) : Prop :=
  match tr with
  | [] =>
      match ph with
      | AtPoll n => remain n = false
      | Finished => True
      | _ => False
      end
  | ev :: rest =>
      match ph, ev with
      | AtPoll n, EvCtxErr None =>
          remain n = true /\
          conforms has_predicate remain (AtAttempt n) rest
      | AtPoll n, EvCtxErr (Some _) =>
          remain n = true /\ conforms has_predicate remain Finished rest
      | AtAttempt n, EvAttempt m None =>
          m = n /\ conforms has_predicate remain Finished rest
      | AtAttempt n, EvAttempt m (Some e) =>
          m = n /\
          conforms has_predicate remain
            (if has_predicate then AtVerdict n e else AtNext n) rest
      | AtVerdict n e, EvIsRetryable e' b =>
          e' = e /\
          conforms has_predicate remain (if b then AtNext n else Finished)
            rest
      | AtNext n, EvNext m d =>
          m = n /\ conforms has_predicate remain (AtWait n d) rest
      | AtWait n d, EvWait d' TimerFired =>
          d' = d /\
          conforms has_predicate remain (AtPoll (Int64.incr n)) rest
      | AtWait n d, EvWait d' DoneFired =>
          d' = d /\ conforms has_predicate remain AtLastErr rest
      | AtLastErr, EvCtxErr _ => conforms has_predicate remain Finished rest
      | _, _ => False
      end
  end.

Definition has_predicate {W : Type} (r : retrier W) : bool :=
  match isRetryable r with Some _ => true | None => false end.

(** The failure of the last invocation in a trace, [err] when the
    operation was not invoked. *)
Definition last_failure (tr : list event) (err : option error)
  : option error :=
  last (map snd (attempts tr)) err.

(** ** Options and chains of errors *)

(** An option that leaves the limit alone. *)
Definition keeps_limit {W : Type} (opt : RetryOption W) : Prop :=
  forall r : retrier W, maxAttempts (opt r) = maxAttempts r.

(** The chain that [errors.Unwrap] walks: the error, its cause, the
    cause of its cause, ... *)
Fixpoint chain (e : error) : list error :=
  e ::
  match e with
  | UnretryableError (Some c) => chain c
  | wrapError _ (Some c) => chain c
  | _ => []
  end.

(** A pointer to an [UnretryableError]. *)
Definition is_unretryable_error (e : error) : bool :=
  match e with
  | UnretryableError _ => true
  | _ => false
  end.

(** * Properties *)

(** ** Machine integers *)

Lemma wrap64_in_range (z : Z) : Int64.in_range z -> Int64.wrap64 z = z.
Proof.
  unfold Int64.in_range, Int64.wrap64, Int64.min_int, Int64.max_int.
  intros Hz. rewrite Z.mod_small; lia.
Qed.

Lemma incr_below (a m : Z) :
  0 <= a -> a < m -> m <= Int64.max_int -> Int64.incr a = a + 1.
Proof.
  intros H0 Ham Hm. unfold Int64.incr, Int64.add.
  apply wrap64_in_range. unfold Int64.in_range, Int64.min_int in *.
  unfold Int64.max_int in *. lia.
Qed.

(** ** The retry loop *)

Section ExecutorFacts.

Context {W : Type}.
Variables (r : retrier W) (ctx : Context W) (f : AttemptFunc W).

Lemma emit_app (l1 l2 : list event) (o : option (result W)) :
  emit l1 (emit l2 o) = emit (l1 ++ l2) o.
Proof.
  destruct o as [res|]; simpl; [|reflexivity].
  now rewrite app_assoc.
Qed.

(** The loop leaves at once when no attempt remains. *)
Lemma Do_loop_done (fuel : nat) (attempt : Z) (err : option error) (w : W) :
  attempts_remain r attempt = false ->
  Do_loop r ctx f (S fuel) attempt err w =
  Some (mkResult (Some (all_attempts_failed err)) ReturnAllFailed [] w).
Proof.
  unfold attempts_remain. intros Hc. simpl. now rewrite Hc.
Qed.

(** A context found canceled at the head of an iteration. *)
Lemma Do_loop_canceled (fuel : nat) (attempt : Z) (err : option error)
  (w w1 : W) (ce : error) :
  attempts_remain r attempt = true ->
  ctx_Err ctx w = (Some ce, w1) ->
  Do_loop r ctx f (S fuel) attempt err w =
  Some (mkResult (Some ce) ReturnCtxErr [EvCtxErr (Some ce)] w1).
Proof.
  unfold attempts_remain. intros Hc He. simpl. now rewrite Hc, He.
Qed.

(** A successful attempt. *)
Lemma Do_loop_success (fuel : nat) (attempt : Z) (err : option error)
  (w w1 w2 : W) :
  attempts_remain r attempt = true ->
  ctx_Err ctx w = (None, w1) ->
  f attempt w1 = (None, w2) ->
  Do_loop r ctx f (S fuel) attempt err w =
  Some (mkResult None ReturnNil [EvCtxErr None; EvAttempt attempt None] w2).
Proof.
  unfold attempts_remain. intros Hc He Hf. simpl. now rewrite Hc, He, Hf.
Qed.

(** A failure that the predicate refuses to retry. *)
Lemma Do_loop_unretryable (fuel : nat) (attempt : Z) (err : option error)
  (w w1 w2 w3 : W) (e : error) :
  attempts_remain r attempt = true ->
  ctx_Err ctx w = (None, w1) ->
  f attempt w1 = (Some e, w2) ->
  verdict r e w2 = (false, w3) ->
  Do_loop r ctx f (S fuel) attempt err w =
  Some (mkResult (Some (UnretryableError (Some e))) ReturnUnretryable
          [EvCtxErr None; EvAttempt attempt (Some e); EvIsRetryable e false]
          w3).
Proof.
  unfold attempts_remain, verdict. intros Hc He Hf Hv. simpl.
  rewrite Hc, He, Hf.
  destruct (isRetryable r) as [p|]; [|discriminate].
  now rewrite Hv.
Qed.

(** A retryable failure whose wait is cut short by the context. *)
Lemma Do_loop_wait_canceled (fuel : nat) (attempt : Z) (err : option error)
  (w w1 w2 w3 w4 w5 w6 : W) (e : error) (d : Duration) (ce : option error) :
  attempts_remain r attempt = true ->
  ctx_Err ctx w = (None, w1) ->
  f attempt w1 = (Some e, w2) ->
  verdict r e w2 = (true, w3) ->
  backoff r attempt w3 = (d, w4) ->
  ctx_select ctx d w4 = (DoneFired, w5) ->
  ctx_Err ctx w5 = (ce, w6) ->
  Do_loop r ctx f (S fuel) attempt err w =
  Some (mkResult ce ReturnCtxDone
          ([EvCtxErr None; EvAttempt attempt (Some e)] ++
           verdict_events r e true ++
           [EvNext attempt d; EvWait d DoneFired; EvCtxErr ce]) w6).
Proof.
  unfold attempts_remain, verdict, verdict_events.
  intros Hc He Hf Hv Hb Hs Hce. simpl.
  rewrite Hc, He, Hf.
  destruct (isRetryable r) as [p|].
  - rewrite Hv. simpl. unfold wait_step. now rewrite Hb, Hs, Hce.
  - injection Hv as <-. unfold wait_step. now rewrite Hb, Hs, Hce.
Qed.

(** A retryable failure followed by a complete wait: the loop goes on
    with the next attempt number. *)
Lemma Do_loop_retry (fuel : nat) (attempt : Z) (err : option error)
  (w w1 w2 w3 w4 w5 : W) (e : error) (d : Duration) :
  attempts_remain r attempt = true ->
  ctx_Err ctx w = (None, w1) ->
  f attempt w1 = (Some e, w2) ->
  verdict r e w2 = (true, w3) ->
  backoff r attempt w3 = (d, w4) ->
  ctx_select ctx d w4 = (TimerFired, w5) ->
  Do_loop r ctx f (S fuel) attempt err w =
  emit ([EvCtxErr None; EvAttempt attempt (Some e)] ++
        verdict_events r e true ++
        [EvNext attempt d; EvWait d TimerFired])
    (Do_loop r ctx f fuel (Int64.incr attempt) (Some e) w5).
Proof.
  unfold attempts_remain, verdict, verdict_events.
  intros Hc He Hf Hv Hb Hs. simpl.
  rewrite Hc, He, Hf.
  destruct (isRetryable r) as [p|].
  - rewrite Hv. simpl. unfold wait_step. rewrite Hb, Hs.
    now rewrite emit_app.
  - injection Hv as <-. unfold wait_step. rewrite Hb, Hs.
    now rewrite emit_app.
Qed.

End ExecutorFacts.

(** *** Negative attempt limits *)

(** C10.  With a negative [maxAttempts] the loop body never runs: [Do]
    returns at once from its last statement, in the world it started in
    and with an empty trace (no operation, predicate, backoff or context
    call), a non-nil error whose message starts with "all attempts failed"
    and that wraps the nil cause. *)
Theorem Do_negative_maxAttempts {W : Type} (r : retrier W) (ctx : Context W)
  (f : AttemptFunc W) (fuel : nat) (w : W) :
  maxAttempts r < 0 ->
  exists e : error,
    retrier_Do r ctx f (S fuel) w =
      Some (mkResult (Some e) ReturnAllFailed [] w) /\
    e = all_attempts_failed None /\
    Unwrap e = None /\
    String.prefix "all attempts failed" (Error e) = true.
Proof.
  intros Hneg. exists (all_attempts_failed None).
  split; [|repeat split].
  unfold retrier_Do. apply Do_loop_done.
  unfold attempts_remain.
  apply orb_false_iff. split.
  - apply Z.eqb_neq. lia.
  - apply Z.ltb_ge. lia.
Qed.

Lemma Do_negative_maxAttempts_witness :
  exists e : error,
    retrier_Do (Sim.retrier_of (-1) None) Sim.ctx (Sim.failing Sim.boom)
      1 (Sim.start None) =
      Some (mkResult (Some e) ReturnAllFailed [] (Sim.start None)) /\
    e = all_attempts_failed None /\
    Unwrap e = None /\
    String.prefix "all attempts failed" (Error e) = true.
Proof.
  apply (Do_negative_maxAttempts (Sim.retrier_of (-1) None)).
  simpl. lia.
Defined.

(** *** Cancellation before an attempt *)

Section Polling.

Context {W : Type}.
Variables (r : retrier W) (ctx : Context W) (f : AttemptFunc W).

Lemma emit_Some (evs : list event) (o : option (result W)) (res : result W) :
  emit evs o = Some res ->
  exists res', o = Some res' /\
    res = mkResult (ret res') (exit res') (evs ++ trace res') (world res').
Proof.
  destruct o as [res'|]; simpl; [|discriminate].
  intros [= <-]. now exists res'.
Qed.

(** In every run that ends, each invocation of the operation directly
    follows a poll of the context that returned nil. *)
Lemma Do_loop_polls (fuel : nat) :
  forall (attempt : Z) (err : option error) (w : W) (res : result W),
    Do_loop r ctx f fuel attempt err w = Some res ->
    polled_before_attempts false (trace res) = true.
Proof.
  induction fuel as [|fuel IH]; intros attempt err w res H; [discriminate|].
  simpl in H.
  destruct (_ || _); [|injection H as <-; reflexivity].
  destruct (ctx_Err ctx w) as [[ce|] w1]; [injection H as <-; reflexivity|].
  destruct (f attempt w1) as [[e|] w2]; [|injection H as <-; reflexivity].
  assert (Hwait : forall w' evs res0,
    (forall d tl, polled_before_attempts false (evs ++ EvNext attempt d :: tl)
                  = polled_before_attempts false tl) ->
    emit evs (wait_step r ctx attempt w'
      (fun w'' => Do_loop r ctx f fuel (Int64.incr attempt) (Some e) w''))
      = Some res0 ->
    polled_before_attempts false (trace res0) = true).
  { intros w' evs res0 Hevs Hres.
    apply emit_Some in Hres. destruct Hres as [res' [Hstep ->]]. simpl.
    unfold wait_step in Hstep.
    destruct (backoff r attempt w') as [d w4].
    destruct (ctx_select ctx d w4) as [[|] w5].
    - apply emit_Some in Hstep. destruct Hstep as [res'' [Hrec ->]].
      simpl. rewrite Hevs. simpl. now apply IH in Hrec.
    - destruct (ctx_Err ctx w5) as [ce w6]. injection Hstep as <-.
      simpl. rewrite Hevs. simpl. now destruct ce. }
  destruct (isRetryable r) as [p|].
  - destruct (p (Some e) w2) as [[|] w3]; simpl in H.
    + eapply Hwait; [|exact H]; reflexivity.
    + injection H as <-. reflexivity.
  - eapply Hwait; [|exact H]; reflexivity.
Qed.

End Polling.

(** C7, as the code has it.  For a limit that is not negative, a context
    already canceled when [Do] is called ends the run at the first poll:
    the operation is not invoked and the error of the context is returned
    as it is.  And in any run, with any configuration, each invocation of
    the operation comes directly after a poll of the context that found it
    not canceled, the first invocation included. *)
Theorem Do_canceled_before_start {W : Type} (r : retrier W) (ctx : Context W)
  (f : AttemptFunc W) (w w1 : W) (ce : error) :
  0 <= maxAttempts r ->
  ctx_Err ctx w = (Some ce, w1) ->
  (forall fuel : nat,
     retrier_Do r ctx f (S fuel) w =
       Some (mkResult (Some ce) ReturnCtxErr [EvCtxErr (Some ce)] w1)) /\
  (forall (fuel : nat) (w' : W) (res : result W),
     retrier_Do r ctx f fuel w' = Some res ->
     polled_before_attempts false (trace res) = true).
Proof.
  intros Hmax Hce. split.
  - intros fuel.
    unfold retrier_Do. apply Do_loop_canceled; [|exact Hce].
    unfold attempts_remain. apply orb_true_iff.
    destruct (Z.eq_dec (maxAttempts r) 0) as [->|Hne]; [now left|right].
    apply Z.ltb_lt. lia.
  - intros fuel w' res. unfold retrier_Do. apply Do_loop_polls.
Qed.

Lemma Do_canceled_before_start_witness :
  retrier_Do (Sim.retrier_of 3 None) Sim.ctx (Sim.failing Sim.boom) 1
    (Sim.start (Some 0)) =
    Some (mkResult (Some DeadlineExceeded) ReturnCtxErr
            [EvCtxErr (Some DeadlineExceeded)] (Sim.start (Some 0))) /\
  polled_before_attempts false
    [EvCtxErr None; EvAttempt 0 (Some Sim.boom); EvNext 0 Second;
     EvWait Second DoneFired; EvCtxErr (Some DeadlineExceeded)] = true.
Proof.
  assert (H0 : 0 <= maxAttempts (Sim.retrier_of 3 None)) by (simpl; lia).
  destruct (Do_canceled_before_start (Sim.retrier_of 3 None) Sim.ctx
              (Sim.failing Sim.boom) (Sim.start (Some 0))
              (Sim.start (Some 0)) DeadlineExceeded H0 eq_refl)
    as [Hstart Hpoll].
  split.
  - apply (Hstart O).
  - apply (Hpoll 2%nat (Sim.start (Some Second))
             (mkResult (Some DeadlineExceeded) ReturnCtxDone
                [EvCtxErr None; EvAttempt 0 (Some Sim.boom); EvNext 0 Second;
                 EvWait Second DoneFired; EvCtxErr (Some DeadlineExceeded)]
                (Sim.mkWorld Sim.halves Second (Some Second) 1))).
    reflexivity.
Defined.

(** C7 as stated fails for a negative limit: the context is canceled
    before the call, and [Do] returns the error of its last statement
    instead of the error of the context. *)
Lemma Do_canceled_before_start_negative_limit :
  ~ (forall (r : retrier Sim.world) (f : AttemptFunc Sim.world)
       (w w1 : Sim.world) (ce : error) (fuel : nat),
       ctx_Err Sim.ctx w = (Some ce, w1) ->
       exists res : result Sim.world,
         retrier_Do r Sim.ctx f (S fuel) w = Some res /\
         ret res = Some ce /\
         attempt_indices (trace res) = []).
Proof.
  intros H.
  destruct (H (Sim.retrier_of (-1) None) (Sim.failing Sim.boom)
              (Sim.start (Some 0)) (Sim.start (Some 0)) DeadlineExceeded
              O eq_refl) as [res [Hrun [Hret _]]].
  vm_compute in Hrun. injection Hrun as <-.
  discriminate Hret.
Qed.

(** *** Reading traces *)

Lemma attempts_app (l1 l2 : list event) :
  attempts (l1 ++ l2) = attempts l1 ++ attempts l2.
Proof.
  induction l1 as [|ev l1 IH]; [reflexivity|].
  destruct ev; simpl; now rewrite IH.
Qed.

Lemma count_waits_app (l1 l2 : list event) :
  count_waits (l1 ++ l2) = (count_waits l1 + count_waits l2)%nat.
Proof.
  unfold count_waits. now rewrite filter_app, length_app.
Qed.

Lemma count_next_app (l1 l2 : list event) :
  count_next (l1 ++ l2) = (count_next l1 + count_next l2)%nat.
Proof.
  unfold count_next. now rewrite filter_app, length_app.
Qed.

Lemma attempts_verdict_events {W : Type} (r : retrier W) (e : error)
  (b : bool) :
  attempts (verdict_events r e b) = [] /\
  count_waits (verdict_events r e b) = O /\
  count_next (verdict_events r e b) = O.
Proof.
  unfold verdict_events. now destruct (isRetryable r).
Qed.

Lemma last_cons {A : Type} (a d : A) (l : list A) :
  last (a :: l) d = last l a.
Proof.
  revert a d. induction l as [|b l IH]; intros a d; [reflexivity|].
  change (last (a :: b :: l) d) with (last (b :: l) d).
  now rewrite !IH.
Qed.

(** *** A failure the predicate refuses *)

(** C6.  When the loop is entered, the context is not canceled, the first
    invocation fails with [e] and the predicate answers false on [e], [Do]
    returns after this single invocation, without asking the backoff for
    a delay and without waiting, an [UnretryableError] whose [Unwrap] is
    [e]. *)
Theorem Do_stops_on_unretryable {W : Type} (r : retrier W) (ctx : Context W)
  (f : AttemptFunc W) (p : IsRetryableFunc W) (w w1 w2 w3 : W) (e : error) :
  0 <= maxAttempts r ->
  ctx_Err ctx w = (None, w1) ->
  f 0 w1 = (Some e, w2) ->
  isRetryable r = Some p ->
  p (Some e) w2 = (false, w3) ->
  forall fuel : nat,
  exists (res : result W) (u : error),
    retrier_Do r ctx f (S fuel) w = Some res /\
    attempts (trace res) = [(0, Some e)] /\
    count_next (trace res) = O /\
    count_waits (trace res) = O /\
    exit res = ReturnUnretryable /\
    ret res = Some u /\
    IsUnretryable (Some u) = true /\
    Unwrap u = Some e.
Proof.
  intros Hmax Hctx Hf Hp Hno fuel.
  eexists. exists (UnretryableError (Some e)). split.
  - unfold retrier_Do.
    apply (Do_loop_unretryable r ctx f fuel 0 None w w1 w2 w3 e);
      try assumption.
    + unfold attempts_remain. apply orb_true_iff.
      destruct (Z.eq_dec (maxAttempts r) 0) as [->|Hne]; [now left|right].
      apply Z.ltb_lt. lia.
    + unfold verdict. now rewrite Hp.
  - repeat split.
Qed.

Lemma Do_stops_on_unretryable_witness :
  exists (res : result Sim.world) (u : error),
    retrier_Do (Sim.retrier_of 3 (Some Sim.never)) Sim.ctx
      (Sim.failing Sim.boom) 1 (Sim.start None) = Some res /\
    attempts (trace res) = [(0, Some Sim.boom)] /\
    count_next (trace res) = O /\
    count_waits (trace res) = O /\
    exit res = ReturnUnretryable /\
    ret res = Some u /\
    IsUnretryable (Some u) = true /\
    Unwrap u = Some Sim.boom.
Proof.
  refine (Do_stops_on_unretryable (Sim.retrier_of 3 (Some Sim.never)) Sim.ctx
            (Sim.failing Sim.boom) Sim.never (Sim.start None)
            (Sim.start None)
            (Sim.mkWorld Sim.halves 0 None 1)
            (Sim.mkWorld Sim.halves 0 None 1) Sim.boom _ _ _ _ _ O).
  - simpl. lia.
  - reflexivity.
  - reflexivity.
  - reflexivity.
  - reflexivity.
Defined.

(** *** An operation that always fails *)

Section AlwaysFailing.

Context {W : Type}.
Variables (r : retrier W) (ctx : Context W) (f : AttemptFunc W).

(** The operation fails whenever it is invoked, every failure is
    retryable, the context is never canceled, and the limit is an [int]. *)
Hypothesis Hfail : forall (n : Z) (w : W), fst (f n w) <> None.
Hypothesis Hretry : forall (e : error) (w : W), fst (verdict r e w) = true.
Hypothesis Hlive : forall w : W, fst (ctx_Err ctx w) = None.
Hypothesis Htimer :
  forall (d : Duration) (w : W), fst (ctx_select ctx d w) = TimerFired.
Hypothesis Hrange : maxAttempts r <= Int64.max_int.
Hypothesis Hbounded : 0 < maxAttempts r.

(** From attempt number [attempt], with [k] attempts left, the loop
    invokes the operation [k] times with consecutive numbers, asks for a
    delay and waits after each of them, and ends at its last statement with
    the last failure. *)
Lemma Do_loop_exhausts (k : nat) :
  forall (attempt : Z) (err : option error) (w : W) (fuel : nat),
    0 <= attempt ->
    attempt + Z.of_nat k = maxAttempts r ->
    (k < fuel)%nat ->
    exists (res : result W) (es : list error),
      Do_loop r ctx f fuel attempt err w = Some res /\
      exit res = ReturnAllFailed /\
      List.length es = k /\
      attempts (trace res) = combine (count_from attempt k) (map Some es) /\
      count_next (trace res) = k /\
      count_waits (trace res) = k /\
      ret res = Some (all_attempts_failed (last (map Some es) err)).
Proof.
  induction k as [|k IH]; intros attempt err w fuel H0 Hk Hfuel.
  - destruct fuel as [|fuel]; [lia|].
    eexists. exists []. split.
    + apply Do_loop_done. unfold attempts_remain.
      apply orb_false_iff. split; [apply Z.eqb_neq|apply Z.ltb_ge]; lia.
    + repeat split.
  - destruct fuel as [|fuel]; [lia|].
    pose proof (Hlive w) as Hl.
    destruct (ctx_Err ctx w) as [ce w1] eqn:Ectx. simpl in Hl. subst ce.
    pose proof (Hfail attempt w1) as Hf.
    destruct (f attempt w1) as [[e|] w2] eqn:Ef; [clear Hf|now elim Hf].
    pose proof (Hretry e w2) as Hv.
    destruct (verdict r e w2) as [b w3] eqn:Ev. simpl in Hv. subst b.
    destruct (backoff r attempt w3) as [d w4] eqn:Eb.
    pose proof (Htimer d w4) as Ht.
    destruct (ctx_select ctx d w4) as [s w5] eqn:Es. simpl in Ht. subst s.
    assert (Hincr : Int64.incr attempt = attempt + 1).
    { apply (incr_below attempt (maxAttempts r)); lia. }
    destruct (IH (attempt + 1) (Some e) w5 fuel) as
      [res [es [Hrun [Hexit [Hlen [Hatt [Hnext [Hwaits Hret]]]]]]]];
      [lia|lia|lia|].
    rewrite (Do_loop_retry r ctx f fuel attempt err w w1 w2 w3 w4 w5 e d);
      try assumption.
    2:{ unfold attempts_remain. apply orb_true_iff. right.
        apply Z.ltb_lt. lia. }
    rewrite Hincr, Hrun. simpl.
    destruct (attempts_verdict_events r e true) as [Va [Vw Vn]].
    eexists. exists (e :: es). split; [reflexivity|]. simpl.
    repeat split.
    + exact Hexit.
    + now rewrite Hlen.
    + rewrite !attempts_app, Va, Hatt. reflexivity.
    + change (count_next
                ([EvCtxErr None; EvAttempt attempt (Some e)] ++
                 (verdict_events r e true ++
                  [EvNext attempt d; EvWait d TimerFired]) ++ trace res) =
              S k).
      rewrite !count_next_app, Vn, Hnext. reflexivity.
    + change (count_waits
                ([EvCtxErr None; EvAttempt attempt (Some e)] ++
                 (verdict_events r e true ++
                  [EvNext attempt d; EvWait d TimerFired]) ++ trace res) =
              S k).
      rewrite !count_waits_app, Vw, Hwaits. reflexivity.
    + change (ret res =
              Some (all_attempts_failed (last (Some e :: map Some es) err))).
      now rewrite last_cons.
Qed.

End AlwaysFailing.



(** *** Unbounded mode *)

Section Unbounded.

Context {W : Type}.
Variables (r : retrier W) (ctx : Context W) (f : AttemptFunc W).
Hypothesis Hzero : maxAttempts r = 0.

Lemma unbounded_emit (evs : list event) (res : result W) :
  unbounded_outcome res ->
  unbounded_outcome
    (mkResult (ret res) (exit res) (evs ++ trace res) (world res)).
Proof.
  unfold unbounded_outcome. simpl.
  destruct (exit res); try exact (fun H => H);
    intros [tr ->]; exists (evs ++ tr); now rewrite app_assoc.
Qed.

Lemma Do_loop_unbounded (fuel : nat) :
  forall (attempt : Z) (err : option error) (w : W) (res : result W),
    Do_loop r ctx f fuel attempt err w = Some res ->
    unbounded_outcome res.
Proof.
  induction fuel as [|fuel IH]; intros attempt err w res H; [discriminate|].
  simpl in H. rewrite Hzero in H. simpl in H.
  destruct (ctx_Err ctx w) as [[ce|] w1].
  { injection H as <-. now exists []. }
  destruct (f attempt w1) as [[e|] w2]; [|injection H as <-; reflexivity].
  assert (Hwait : forall w' evs res0,
    emit evs (wait_step r ctx attempt w'
      (fun w'' => Do_loop r ctx f fuel (Int64.incr attempt) (Some e) w''))
      = Some res0 ->
    unbounded_outcome res0).
  { intros w' evs res0 Hres.
    apply emit_Some in Hres. destruct Hres as [res' [Hstep ->]].
    apply unbounded_emit.
    unfold wait_step in Hstep.
    destruct (backoff r attempt w') as [d w4].
    destruct (ctx_select ctx d w4) as [[|] w5].
    - apply emit_Some in Hstep. destruct Hstep as [res'' [Hrec ->]].
      apply unbounded_emit. now apply IH in Hrec.
    - destruct (ctx_Err ctx w5) as [ce w6]. injection Hstep as <-.
      now exists [EvNext attempt d; EvWait d DoneFired]. }
  destruct (isRetryable r) as [p|].
  - destruct (p (Some e) w2) as [[|] w3]; simpl in H.
    + now apply Hwait in H.
    + injection H as <-. now exists e.
  - now apply Hwait in H.
Qed.

End Unbounded.

(** C8.  With [maxAttempts = 0] no run of [Do] ends at its last
    statement: a run that ends returns nil after a success, the wrapper
    of an unretryable failure, or the value of the last call of
    [ctx.Err].  And when the first attempt fails with a retryable error
    and the context is canceled during the wait that follows, [Do]
    returns the error of the context after exactly one invocation. *)
Theorem Do_unbounded {W : Type} (r : retrier W) (ctx : Context W)
  (f : AttemptFunc W) :
  maxAttempts r = 0 ->
  (forall (fuel : nat) (w : W) (res : result W),
     retrier_Do r ctx f fuel w = Some res ->
     exit res <> ReturnAllFailed /\ unbounded_outcome res) /\
  (forall (w w1 w2 w3 w4 w5 w6 : W) (e ce : error) (d : Duration),
     ctx_Err ctx w = (None, w1) ->
     f 0 w1 = (Some e, w2) ->
     verdict r e w2 = (true, w3) ->
     backoff r 0 w3 = (d, w4) ->
     ctx_select ctx d w4 = (DoneFired, w5) ->
     ctx_Err ctx w5 = (Some ce, w6) ->
     forall fuel : nat,
     exists res : result W,
       retrier_Do r ctx f (S fuel) w = Some res /\
       ret res = Some ce /\
       exit res = ReturnCtxDone /\
       attempts (trace res) = [(0, Some e)]).
Proof.
  intros Hzero. split.
  - intros fuel w res Hrun.
    pose proof (Do_loop_unbounded r ctx f Hzero fuel 0 None w res Hrun) as Ho.
    split; [|exact Ho].
    unfold unbounded_outcome in Ho. intros Hexit. now rewrite Hexit in Ho.
  - intros w w1 w2 w3 w4 w5 w6 e ce d Hc Hf Hv Hb Hs Hce fuel.
    eexists. split.
    + unfold retrier_Do.
      apply (Do_loop_wait_canceled r ctx f fuel 0 None w w1 w2 w3 w4 w5 w6
               e d (Some ce)); try assumption.
      unfold attempts_remain. now rewrite Hzero.
    + simpl. repeat split.
      rewrite !attempts_app.
      destruct (attempts_verdict_events r e true) as [-> _]. reflexivity.
Qed.

Lemma Do_unbounded_witness :
  exists res : result Sim.world,
    retrier_Do (Sim.retrier_of 0 None) Sim.ctx (Sim.failing Sim.boom) 1
      (Sim.start (Some 500000000)) = Some res /\
    ret res = Some DeadlineExceeded /\
    exit res = ReturnCtxDone /\
    attempts (trace res) = [(0, Some Sim.boom)].
Proof.
  refine (proj2 (Do_unbounded (Sim.retrier_of 0 None) Sim.ctx
                   (Sim.failing Sim.boom) eq_refl)
            (Sim.start (Some 500000000)) _ _ _ _ _ _
            Sim.boom DeadlineExceeded _ _ _ _ _ _ _ O);
    reflexivity.
Defined.

(** *** The wait after the final attempt *)

(** C1, on the code.  With [maxAttempts = 1] and an operation that fails
    with a retryable error, the only permitted attempt is followed by a
    call of the backoff and a wait of one second before [Do] returns; and
    when the context ends during that wait, [Do] returns the error of the
    context, not the error of its last statement. *)
Theorem Do_waits_after_final_attempt :
  option_map
    (fun res => (ret res, exit res, trace res, Sim.clock (world res)))
    (Do Sim.getRand Sim.setRand Sim.background 1 (Sim.failing Sim.boom) 2
       (Sim.start None)) =
  Some (Some (all_attempts_failed (Some Sim.boom)), ReturnAllFailed,
        [EvCtxErr None; EvAttempt 0 (Some Sim.boom);
         EvIsRetryable Sim.boom true;
         EvNext 0 Second; EvWait Second TimerFired],
        Second) /\
  option_map (fun res => (ret res, exit res))
    (Do Sim.getRand Sim.setRand Sim.ctx 1 (Sim.failing Sim.boom) 2
       (Sim.start (Some 500000000))) =
  Some (Some DeadlineExceeded, ReturnCtxDone).
Proof.
  split; vm_compute; reflexivity.
Qed.

(** *** The shape of the returned error *)

Section Shapes.

Context {W : Type}.
Variables (r : retrier W) (ctx : Context W) (f : AttemptFunc W).
Variables P C : error -> Prop.

Hypothesis Hop :
  forall (n : Z) (w w' : W) (e : error), f n w = (Some e, w') -> P e.
Hypothesis Hctx :
  forall (w w' : W) (ce : error), ctx_Err ctx w = (Some ce, w') -> C ce.

Lemma returned_as_emit (evs : list event) (res : result W) :
  returned_as P C res ->
  returned_as P C
    (mkResult (ret res) (exit res) (evs ++ trace res) (world res)).
Proof. exact (fun H => H). Qed.

Lemma Do_loop_returned_as (fuel : nat) :
  forall (attempt : Z) (err : option error) (w : W) (res : result W),
    (forall e : error, err = Some e -> P e) ->
    Do_loop r ctx f fuel attempt err w = Some res ->
    returned_as P C res.
Proof.
  induction fuel as [|fuel IH]; intros attempt err w res Herr H;
    [discriminate|].
  simpl in H.
  destruct (_ || _).
  2:{ injection H as <-. now exists err. }
  destruct (ctx_Err ctx w) as [[ce|] w1] eqn:Ectx.
  { injection H as <-. intros ce' [= <-]. eapply Hctx, Ectx. }
  destruct (f attempt w1) as [[e|] w2] eqn:Ef;
    [|injection H as <-; reflexivity].
  assert (He : P e) by (eapply Hop, Ef).
  assert (Hwait : forall w' evs res0,
    emit evs (wait_step r ctx attempt w'
      (fun w'' => Do_loop r ctx f fuel (Int64.incr attempt) (Some e) w''))
      = Some res0 ->
    returned_as P C res0).
  { intros w' evs res0 Hres.
    apply emit_Some in Hres. destruct Hres as [res' [Hstep ->]].
    apply returned_as_emit.
    unfold wait_step in Hstep.
    destruct (backoff r attempt w') as [d w4].
    destruct (ctx_select ctx d w4) as [[|] w5].
    - apply emit_Some in Hstep. destruct Hstep as [res'' [Hrec ->]].
      apply returned_as_emit. apply IH in Hrec; [exact Hrec|].
      now intros e' [= <-].
    - destruct (ctx_Err ctx w5) as [ce w6] eqn:Ece. injection Hstep as <-.
      intros ce' Hce'. simpl in Hce'. subst ce. eapply Hctx, Ece. }
  destruct (isRetryable r) as [p|].
  - destruct (p (Some e) w2) as [[|] w3]; simpl in H.
    + now apply Hwait in H.
    + injection H as <-. now exists e.
  - now apply Hwait in H.
Qed.

End Shapes.

Lemma unmarked_wrapper (last : option error) :
  (forall e : error, last = Some e -> unmarked e) ->
  marks (Some (all_attempts_failed last)) = (false, false).
Proof.
  intros Hlast. destruct last as [e|]; [|reflexivity].
  destruct (Hlast e eq_refl) as [Hu Hc].
  unfold marks, IsUnretryable, is_context_error in *. simpl in *.
  now rewrite Hu, Hc.
Qed.

Lemma unmarked_unretryable (e : error) :
  unmarked e -> marks (Some (UnretryableError (Some e))) = (true, false).
Proof.
  intros [_ Hc]. unfold marks, is_context_error in *. simpl in *.
  now rewrite Hc.
Qed.




(** ** Backoff strategies *)

Section BackoffFacts.

Context {FL : Float64}.

Lemma addJitter_disabled (d : Duration) (jitter : F) (g : Rand) :
  jitter_disabled jitter = true -> addJitter d jitter g = (d, g).
Proof.
  unfold jitter_disabled, addJitter. now intros ->.
Qed.

Lemma LinearBackoff_Next_capped (l : LinearBackoff) (attempt : Z) (g : Rand) :
  0 < linMax l -> linMax l < linear_delay l attempt ->
  LinearBackoff_Next l attempt g = (linMax l, g).
Proof.
  intros Hmax Hd. unfold LinearBackoff_Next.
  apply Z.ltb_lt in Hmax, Hd. now rewrite Hmax, Hd.
Qed.

Lemma ExponentialBackoff_Next_capped (e : ExponentialBackoff) (attempt : Z)
  (g : Rand) :
  0 < expMax e ->
  fgt (exponential_delay e attempt) (ofInt (expMax e)) = true ->
  ExponentialBackoff_Next e attempt g = (expMax e, g).
Proof.
  intros Hmax Hd. unfold ExponentialBackoff_Next.
  apply Z.ltb_lt in Hmax. now rewrite Hmax, Hd.
Qed.

End BackoffFacts.




(** ** Truncation of rationals *)

Lemma trunc_nonneg (q : Q) : (0 <= q)%Q -> Rational.trunc q = Qfloor q.
Proof.
  destruct q as [n d]. unfold Qle, Rational.trunc, Qfloor. simpl.
  intros Hn. apply Z.quot_div_nonneg; lia.
Qed.

Lemma trunc_neg (q : Q) : (q <= 0)%Q -> Rational.trunc q = Qceiling q.
Proof.
  destruct q as [n d]. unfold Qle, Rational.trunc, Qceiling, Qfloor. simpl.
  intros Hn. rewrite <- (Z.opp_involutive n) at 1.
  rewrite Z.quot_opp_l by lia.
  f_equal. apply Z.quot_div_nonneg; lia.
Qed.

Lemma trunc_le (x y : Q) :
  (x <= y)%Q -> Rational.trunc x <= Rational.trunc y.
Proof.
  intros Hxy.
  destruct (Qlt_le_dec x 0) as [Hx|Hx]; destruct (Qlt_le_dec y 0) as [Hy|Hy].
  - rewrite !trunc_neg by now apply Qlt_le_weak.
    now apply Qceiling_resp_le.
  - rewrite (trunc_neg x) by now apply Qlt_le_weak.
    rewrite (trunc_nonneg y) by assumption.
    transitivity 0.
    + change 0 with (Qceiling 0). apply Qceiling_resp_le.
      now apply Qlt_le_weak.
    + change 0 with (Qfloor 0). now apply Qfloor_resp_le.
  - exfalso. apply (Qlt_not_le _ _ Hy). now apply Qle_trans with x.
  - rewrite !trunc_nonneg by assumption. now apply Qfloor_resp_le.
Qed.

Lemma trunc_comp (x y : Q) : (x == y)%Q -> Rational.trunc x = Rational.trunc y.
Proof.
  intros Hxy. apply Z.le_antisymm; apply trunc_le; rewrite Hxy; apply Qle_refl.
Qed.

Lemma trunc_inject_Z (z : Z) : Rational.trunc (inject_Z z) = z.
Proof.
  unfold Rational.trunc. simpl. apply Z.quot_1_r.
Qed.

(** The rationals are an exact arithmetic. *)
Lemma Exact_is_exact : ExactArith Exact (fun q => q).
Proof.
  constructor; simpl; intros; try reflexivity.
  - unfold Rational.pow. now rewrite trunc_inject_Z.
  - apply Qle_bool_iff.
  - unfold Rational.ltb. rewrite negb_true_iff.
    split.
    + intros Hb. apply Qnot_le_lt. intros Hle.
      apply Qle_bool_iff in Hle. congruence.
    + intros Hlt. destruct (Qle_bool y x) eqn:E; [|reflexivity].
      apply Qle_bool_iff in E. now apply Qlt_not_le in Hlt.
Qed.

(** ** The delay formulas *)

Section Formulas.

Context {FL : Float64}.

Lemma FixedBackoff_Next_plain (f : FixedBackoff) (attempt : Z) (g : Rand) :
  jitter_disabled (fixedJitter f) = true ->
  FixedBackoff_Next f attempt g = (Interval f, g).
Proof. apply addJitter_disabled. Qed.

Lemma LinearBackoff_Next_min (l : LinearBackoff) (attempt : Z) (g : Rand) :
  0 < linMax l ->
  jitter_disabled (linJitter l) = true ->
  LinearBackoff_Next l attempt g =
    (Z.min (linear_delay l attempt) (linMax l), g).
Proof.
  intros Hmax Hj. unfold LinearBackoff_Next.
  apply Z.ltb_lt in Hmax. rewrite Hmax. simpl.
  destruct (linMax l <? linear_delay l attempt) eqn:E.
  - apply Z.ltb_lt in E. now rewrite Z.min_r by lia.
  - apply Z.ltb_ge in E. rewrite Z.min_l by lia.
    now apply addJitter_disabled.
Qed.

(** Without overflow the sum and the product are the ones of [Z]. *)
Lemma linear_delay_in_range (l : LinearBackoff) (attempt : Z) :
  Int64.in_range (attempt * linStep l) ->
  Int64.in_range (linBase l + attempt * linStep l) ->
  linear_delay l attempt = linBase l + attempt * linStep l.
Proof.
  intros Hm Ha. unfold linear_delay, Int64.add, Int64.mul.
  rewrite (wrap64_in_range _ Hm). now apply wrap64_in_range.
Qed.

Variable val : F -> Q.
Context {EA : ExactArith FL val}.

Lemma exponential_delay_val (e : ExponentialBackoff) (attempt : Z) :
  (val (exponential_delay e attempt) ==
   inject_Z (expBase e) * Qpower (val (expFactor e)) attempt)%Q.
Proof.
  unfold exponential_delay.
  now rewrite val_mul, val_ofInt, val_pow.
Qed.

Lemma ExponentialBackoff_Next_min (e : ExponentialBackoff) (attempt : Z)
  (g : Rand) :
  0 < expMax e ->
  jitter_disabled (expJitter e) = true ->
  ExponentialBackoff_Next e attempt g =
    (Z.min
       (Rational.trunc
          (inject_Z (expBase e) * Qpower (val (expFactor e)) attempt))
       (expMax e), g).
Proof.
  intros Hmax Hj. unfold ExponentialBackoff_Next.
  apply Z.ltb_lt in Hmax. rewrite Hmax. simpl.
  rewrite <- (trunc_comp _ _ (exponential_delay_val e attempt)).
  rewrite <- val_toInt.
  destruct (fgt (exponential_delay e attempt) (ofInt (expMax e))) eqn:E.
  - unfold fgt in E. apply val_lt in E. rewrite val_ofInt in E.
    apply Qlt_le_weak, trunc_le in E.
    rewrite trunc_inject_Z, <- val_toInt in E.
    now rewrite Z.min_r by lia.
  - assert (Hle : (val (exponential_delay e attempt) <=
                   inject_Z (expMax e))%Q).
    { apply Qnot_lt_le. intros Hlt.
      rewrite <- (val_ofInt (expMax e)) in Hlt.
      apply val_lt in Hlt. unfold fgt in E. congruence. }
    apply trunc_le in Hle. rewrite trunc_inject_Z, <- val_toInt in Hle.
    rewrite Z.min_l by lia.
    now apply addJitter_disabled.
Qed.

Lemma ExponentialBackoff_Next_first (e : ExponentialBackoff) (g : Rand) :
  jitter_disabled (expJitter e) = true ->
  ExponentialBackoff_Next e 0 g =
    (if 0 <? expMax e then Z.min (expBase e) (expMax e) else expBase e, g).
Proof.
  intros Hj.
  assert (Hd : (val (exponential_delay e 0) == inject_Z (expBase e))%Q).
  { rewrite exponential_delay_val. simpl. apply Qmult_1_r. }
  assert (Ht : toInt (exponential_delay e 0) = expBase e).
  { rewrite val_toInt, (trunc_comp _ _ Hd). apply trunc_inject_Z. }
  destruct (Z.ltb_spec 0 (expMax e)) as [Hpos|Hnpos].
  - rewrite ExponentialBackoff_Next_min by assumption.
    rewrite <- (trunc_comp _ _ (exponential_delay_val e 0)).
    now rewrite <- val_toInt, Ht.
  - unfold ExponentialBackoff_Next.
    apply Z.ltb_ge in Hnpos. rewrite Hnpos. simpl.
    rewrite Ht. now apply addJitter_disabled.
Qed.

End Formulas.




(** The same values come out of IEEE arithmetic for the exponential
    backoff of the documentation, jitter off: one second doubled at each
    attempt, up to the cap of thirty seconds. *)
Example Next_exponential_IEEE :
  map (fun n => fst (Next Cases.exponential_plain n Cases.zeros))
    [0; 1; 2; 3; 4; 5; 6] =
  [Second; 2 * Second; 4 * Second; 8 * Second; 16 * Second;
   30 * Second; 30 * Second].
Proof. vm_compute. reflexivity. Qed.

(** ** Jitter *)

Section Jitter.

Context {FL : Float64}.
Variable val : F -> Q.
Context {EA : ExactArith FL val}.

Lemma jitter_enabled (jitter : F) :
  (0 < val jitter)%Q -> (val jitter < 1)%Q ->
  jitter_disabled jitter = false.
Proof.
  intros H0 H1. unfold jitter_disabled, fge.
  apply orb_false_iff. split.
  - destruct (fle jitter (ofInt 0)) eqn:E; [|reflexivity].
    apply val_le in E. rewrite val_ofInt in E.
    now apply Qlt_not_le in H0.
  - destruct (fle (ofInt 1) jitter) eqn:E; [|reflexivity].
    apply val_le in E. rewrite val_ofInt in E.
    now apply Qlt_not_le in H1.
Qed.

(** The value that is cut to whole nanoseconds. *)
Lemma addJitter_val (d : Duration) (jitter : F) (g : Rand) :
  jitter_disabled jitter = false ->
  fst (addJitter d jitter g) =
    Rational.trunc
      (inject_Z d * (1 + (val (draws g (pos g)) * 2 - 1) * val jitter)).
Proof.
  unfold jitter_disabled, addJitter. intros ->. simpl.
  rewrite val_toInt. apply trunc_comp.
  rewrite val_mul, val_add, val_mul, val_sub, val_mul, !val_ofInt.
  reflexivity.
Qed.

Lemma addJitter_between (d : Duration) (jitter : F) (g : Rand) :
  (0 < val jitter)%Q -> (val jitter < 1)%Q ->
  (0 <= val (draws g (pos g)))%Q -> (val (draws g (pos g)) < 1)%Q ->
  (0 <= d ->
   Rational.trunc (inject_Z d * (1 - val jitter)) <=
     fst (addJitter d jitter g) <=
   Rational.trunc (inject_Z d * (1 + val jitter))) /\
  (d <= 0 ->
   Rational.trunc (inject_Z d * (1 + val jitter)) <=
     fst (addJitter d jitter g) <=
   Rational.trunc (inject_Z d * (1 - val jitter))).
Proof.
  intros Hj0 Hj1 Hr0 Hr1.
  rewrite (addJitter_val d jitter g (jitter_enabled jitter Hj0 Hj1)).
  set (j := val jitter) in *. set (x := val (draws g (pos g))) in *.
  assert (Hlo : (- j <= (x * 2 - 1) * j)%Q) by nra.
  assert (Hhi : ((x * 2 - 1) * j <= j)%Q) by nra.
  set (delta := ((x * 2 - 1) * j)%Q) in *.
  split; intros Hd.
  - assert (HD : (0 <= inject_Z d)%Q).
    { change 0%Q with (inject_Z 0). now rewrite <- Zle_Qle. }
    split; apply trunc_le; nra.
  - assert (HD : (inject_Z d <= 0)%Q).
    { change 0%Q with (inject_Z 0). now rewrite <- Zle_Qle. }
    split; apply trunc_le; nra.
Qed.

End Jitter.




(** ** A run that succeeds *)

(** An operation that fails at the attempts 0 and 1 and succeeds at
    attempt 2, with a limit of three attempts: three invocations, two
    consultations of the predicate, two waits in between, and nil. *)
Example Do_succeeds_at_third_attempt :
  option_map
    (fun res =>
       (ret res, exit res, attempt_indices (trace res),
        count_predicate (trace res), count_waits (trace res),
        Sim.calls (world res)))
    (retrier_Do (Sim.retrier_of 3 (Some Sim.always)) Sim.background
       (Sim.succeeds_at 2) 4 (Sim.start None)) =
  Some (None, ReturnNil, [0; 1; 2], 2%nat, 2%nat, 3%nat).
Proof. reflexivity. Qed.

(** * More of the package *)

(** ** The loop and its runs *)

Section RunFacts.

Context {W : Type}.
Variables (r : retrier W) (ctx : Context W) (f : AttemptFunc W).

(** A loop that ends within its fuel ends as the rules of [Run] say. *)
Lemma Do_loop_Run (fuel : nat) :
  forall (attempt : Z) (err : option error) (w : W) (res : result W),
    Do_loop r ctx f fuel attempt err w = Some res ->
    Run r ctx f attempt err w res.
Proof.
  induction fuel as [|fuel IH]; intros attempt err w res H; [discriminate|].
  destruct (attempts_remain r attempt) eqn:Hc.
  2:{ rewrite (Do_loop_done r ctx f fuel attempt err w Hc) in H.
      injection H as <-. now constructor. }
  destruct (ctx_Err ctx w) as [[ce|] w1] eqn:Ectx.
  { rewrite (Do_loop_canceled r ctx f fuel attempt err w w1 ce Hc Ectx) in H.
    injection H as <-. now constructor. }
  destruct (f attempt w1) as [[e|] w2] eqn:Ef.
  2:{ rewrite (Do_loop_success r ctx f fuel attempt err w w1 w2 Hc Ectx Ef)
        in H.
      injection H as <-. now apply Run_success with w1. }
  destruct (verdict r e w2) as [[|] w3] eqn:Ev.
  2:{ rewrite (Do_loop_unretryable r ctx f fuel attempt err w w1 w2 w3 e
                 Hc Ectx Ef Ev) in H.
      injection H as <-. now apply Run_unretryable with w1 w2. }
  destruct (backoff r attempt w3) as [d w4] eqn:Eb.
  destruct (ctx_select ctx d w4) as [[|] w5] eqn:Es.
  - rewrite (Do_loop_retry r ctx f fuel attempt err w w1 w2 w3 w4 w5 e d
               Hc Ectx Ef Ev Eb Es) in H.
    apply emit_Some in H. destruct H as [res' [Hrec ->]].
    apply IH in Hrec.
    now apply (Run_retry r ctx f attempt err w w1 w2 w3 w4 w5 e d res').
  - destruct (ctx_Err ctx w5) as [ce w6] eqn:Ece.
    rewrite (Do_loop_wait_canceled r ctx f fuel attempt err w w1 w2 w3 w4 w5
               w6 e d ce Hc Ectx Ef Ev Eb Es Ece) in H.
    injection H as <-.
    pose proof (Run_wait_canceled r ctx f attempt err w w1 w2 w3 w4 w5 w6
                  e d ce Hc Ectx Ef Ev Eb Es Ece) as R.
    unfold iteration in R. rewrite <- !app_assoc in R. exact R.
Qed.

(** A run is found by the loop, with any fuel beyond some amount. *)
Lemma Run_Do_loop (attempt : Z) (err : option error) (w : W)
  (res : result W) :
  Run r ctx f attempt err w res ->
  exists n : nat, forall fuel : nat,
    (n <= fuel)%nat -> Do_loop r ctx f fuel attempt err w = Some res.
Proof.
  induction 1 as
    [attempt err w Hc
    |attempt err w w1 ce Hc Ectx
    |attempt err w w1 w2 Hc Ectx Ef
    |attempt err w w1 w2 w3 e Hc Ectx Ef Ev
    |attempt err w w1 w2 w3 w4 w5 w6 e d ce Hc Ectx Ef Ev Eb Es Ece
    |attempt err w w1 w2 w3 w4 w5 e d res Hc Ectx Ef Ev Eb Es Hrun IH].
  - exists 1%nat. intros [|fuel] Hf; [lia|]. now apply Do_loop_done.
  - exists 1%nat. intros [|fuel] Hf; [lia|]. now apply Do_loop_canceled.
  - exists 1%nat. intros [|fuel] Hf; [lia|].
    now apply Do_loop_success with w1.
  - exists 1%nat. intros [|fuel] Hf; [lia|].
    now apply Do_loop_unretryable with w1 w2.
  - exists 1%nat. intros [|fuel] Hf; [lia|].
    unfold iteration. rewrite <- !app_assoc.
    now apply Do_loop_wait_canceled with w1 w2 w3 w4 w5.
  - destruct IH as [n IH]. exists (S n). intros [|fuel] Hf; [lia|].
    rewrite (Do_loop_retry r ctx f fuel attempt err w w1 w2 w3 w4 w5 e d
               Hc Ectx Ef Ev Eb Es).
    rewrite IH by lia. reflexivity.
Qed.

(** The steps of an iteration are functions of the world: a loop has at
    most one run. *)
Lemma Run_unique (attempt : Z) (err : option error) (w : W)
  (res1 res2 : result W) :
  Run r ctx f attempt err w res1 ->
  Run r ctx f attempt err w res2 ->
  res1 = res2.
Proof.
  intros H1 H2.
  apply Run_Do_loop in H1, H2.
  destruct H1 as [n1 H1], H2 as [n2 H2].
  specialize (H1 (n1 + n2)%nat). specialize (H2 (n1 + n2)%nat).
  rewrite H1 in H2 by lia. injection H2; [trivial|lia].
Qed.

End RunFacts.

(** ** Invariants of every run *)

Section RunInvariants.

Context {W : Type}.
Variables (r : retrier W) (ctx : Context W) (f : AttemptFunc W).

Lemma iteration_conforms (attempt : Z) (e : error) (d : Duration)
  (s : wait_result) (tl : list event) :
  attempts_remain r attempt = true ->
  conforms (has_predicate r) (attempts_remain r)
    (match s with
     | TimerFired => AtPoll (Int64.incr attempt)
     | DoneFired => AtLastErr
     end) tl ->
  conforms (has_predicate r) (attempts_remain r) (AtPoll attempt)
    (iteration r attempt e d s ++ tl).
Proof.
  intros Hc Htl. unfold iteration, verdict_events, has_predicate in *.
  destruct (isRetryable r); destruct s; simpl; repeat split; assumption.
Qed.

Lemma Run_conforms (attempt : Z) (err : option error) (w : W)
  (res : result W) :
  Run r ctx f attempt err w res ->
  conforms (has_predicate r) (attempts_remain r) (AtPoll attempt)
    (trace res).
Proof.
  induction 1 as
    [attempt err w Hc
    |attempt err w w1 ce Hc Ectx
    |attempt err w w1 w2 Hc Ectx Ef
    |attempt err w w1 w2 w3 e Hc Ectx Ef Ev
    |attempt err w w1 w2 w3 w4 w5 w6 e d ce Hc Ectx Ef Ev Eb Es Ece
    |attempt err w w1 w2 w3 w4 w5 e d res Hc Ectx Ef Ev Eb Es Hrun IH];
    simpl.
  - exact Hc.
  - now split.
  - now repeat split.
  - unfold verdict, has_predicate in *.
    destruct (isRetryable r); [now repeat split|].
    discriminate Ev.
  - now apply iteration_conforms.
  - now apply iteration_conforms.
Qed.

End RunInvariants.



(** ** What [Do] returns *)

Section Returned.

Context {W : Type}.
Variables (r : retrier W) (ctx : Context W) (f : AttemptFunc W).

Lemma attempts_iteration (attempt : Z) (e : error) (d : Duration)
  (s : wait_result) (tl : list event) :
  attempts (iteration r attempt e d s ++ tl) =
    (attempt, Some e) :: attempts tl.
Proof.
  unfold iteration. rewrite !attempts_app.
  destruct (attempts_verdict_events r e true) as [-> _]. reflexivity.
Qed.

Lemma last_failure_iteration (attempt : Z) (e : error) (d : Duration)
  (s : wait_result) (tl : list event) (err : option error) :
  last_failure (iteration r attempt e d s ++ tl) err =
    last_failure tl (Some e).
Proof.
  unfold last_failure. rewrite attempts_iteration. simpl map.
  apply last_cons.
Qed.

(** The error of the last invocation is the one that is wrapped. *)
Lemma Run_wraps_last_failure (attempt : Z) (err : option error) (w : W)
  (res : result W) :
  Run r ctx f attempt err w res ->
  match exit res with
  | ReturnUnretryable =>
      exists e : error,
        last_failure (trace res) err = Some e /\
        ret res = Some (UnretryableError (Some e))
  | ReturnAllFailed =>
      ret res = Some (all_attempts_failed (last_failure (trace res) err))
  | _ => True
  end.
Proof.
  induction 1 as
    [attempt err w Hc
    |attempt err w w1 ce Hc Ectx
    |attempt err w w1 w2 Hc Ectx Ef
    |attempt err w w1 w2 w3 e Hc Ectx Ef Ev
    |attempt err w w1 w2 w3 w4 w5 w6 e d ce Hc Ectx Ef Ev Eb Es Ece
    |attempt err w w1 w2 w3 w4 w5 e d res Hc Ectx Ef Ev Eb Es Hrun IH];
    cbn [exit ret trace]; try exact I.
  - reflexivity.
  - now exists e.
  - rewrite last_failure_iteration. exact IH.
Qed.

(** Only a success returns nil, when the context keeps its contract. *)
Lemma Run_nil_is_success (attempt : Z) (err : option error) (w : W)
  (res : result W) :
  (forall (d : Duration) (w1 w2 : W),
     ctx_select ctx d w1 = (DoneFired, w2) -> fst (ctx_Err ctx w2) <> None) ->
  Run r ctx f attempt err w res ->
  (ret res = None <-> exit res = ReturnNil).
Proof.
  intros Hdone.
  induction 1 as
    [attempt err w Hc
    |attempt err w w1 ce Hc Ectx
    |attempt err w w1 w2 Hc Ectx Ef
    |attempt err w w1 w2 w3 e Hc Ectx Ef Ev
    |attempt err w w1 w2 w3 w4 w5 w6 e d ce Hc Ectx Ef Ev Eb Es Ece
    |attempt err w w1 w2 w3 w4 w5 e d res Hc Ectx Ef Ev Eb Es Hrun IH];
    simpl; try (split; discriminate); try exact IH.
  - now split.
  - split; [|discriminate]. intros ->.
    apply Hdone in Es. rewrite Ece in Es. now elim Es.
Qed.

(** A predicate that never refuses never stops the loop. *)
Lemma Run_never_refused (attempt : Z) (err : option error) (w : W)
  (res : result W) :
  (forall (e : error) (w' : W), fst (verdict r e w') = true) ->
  Run r ctx f attempt err w res ->
  exit res <> ReturnUnretryable.
Proof.
  intros Hv.
  induction 1 as
    [attempt err w Hc
    |attempt err w w1 ce Hc Ectx
    |attempt err w w1 w2 Hc Ectx Ef
    |attempt err w w1 w2 w3 e Hc Ectx Ef Ev
    |attempt err w w1 w2 w3 w4 w5 w6 e d ce Hc Ectx Ef Ev Eb Es Ece
    |attempt err w w1 w2 w3 w4 w5 e d res Hc Ectx Ef Ev Eb Es Hrun IH];
    simpl; try discriminate; try exact IH.
  specialize (Hv e w2). rewrite Ev in Hv. discriminate Hv.
Qed.

End Returned.

(** X2.  The cause is kept: when [Do] stops on a refusal of the predicate
    the result is an [UnretryableError] whose [Unwrap] is the failure of
    the last invocation, and when it runs out of attempts the result is the
    wrapper whose [Unwrap] is the failure of the last invocation (nil when
    there was no invocation). *)
Theorem Do_wraps_last_failure {W : Type} (r : retrier W) (ctx : Context W)
  (f : AttemptFunc W) (fuel : nat) (w : W) (res : result W) :
  retrier_Do r ctx f fuel w = Some res ->
  (exit res = ReturnUnretryable ->
   exists (e u : error),
     last_failure (trace res) None = Some e /\
     ret res = Some u /\ Unwrap u = Some e /\ IsUnretryable (Some u) = true) /\
  (exit res = ReturnAllFailed ->
   exists u : error,
     ret res = Some u /\ Unwrap u = last_failure (trace res) None).
Proof.
  intros H. apply Do_loop_Run, Run_wraps_last_failure in H.
  split; intros Hx; rewrite Hx in H.
  - destruct H as [e [Hl Hr]]. exists e, (UnretryableError (Some e)).
    repeat split; assumption.
  - eexists. split; [exact H|reflexivity].
Qed.

Lemma Do_wraps_last_failure_witness :
  exists u : error,
    Some (all_attempts_failed (Some Sim.boom)) = Some u /\
    Unwrap u =
      last_failure
        [EvCtxErr None; EvAttempt 0 (Some Sim.boom); EvNext 0 Second;
         EvWait Second TimerFired] None.
Proof.
  refine (proj2 (Do_wraps_last_failure (Sim.retrier_of 1 None) Sim.background
                   (Sim.failing Sim.boom) 2 (Sim.start None)
                   (mkResult (Some (all_attempts_failed (Some Sim.boom)))
                      ReturnAllFailed
                      [EvCtxErr None; EvAttempt 0 (Some Sim.boom);
                       EvNext 0 Second; EvWait Second TimerFired]
                      (Sim.mkWorld Sim.halves Second None 1)) _) _);
    reflexivity.
Defined.

(** X3.  [Do] returns nil only from the [return nil] that follows a
    successful attempt, provided that the context reports an error once
    its [Done] channel has fired; every other way out returns an error. *)
Theorem Do_nil_only_on_success {W : Type} (r : retrier W) (ctx : Context W)
  (f : AttemptFunc W) (fuel : nat) (w : W) (res : result W) :
  (forall (d : Duration) (w1 w2 : W),
     ctx_select ctx d w1 = (DoneFired, w2) -> fst (ctx_Err ctx w2) <> None) ->
  retrier_Do r ctx f fuel w = Some res ->
  (ret res = None <-> exit res = ReturnNil).
Proof.
  intros Hdone H. eapply Run_nil_is_success; [exact Hdone|].
  eapply Do_loop_Run, H.
Qed.

Lemma Do_nil_only_on_success_witness :
  Some DeadlineExceeded = @None error <-> ReturnCtxDone = ReturnNil.
Proof.
  refine (Do_nil_only_on_success (Sim.retrier_of 0 None) Sim.ctx
            (Sim.failing Sim.boom) 1 (Sim.start (Some 500000000))
            (mkResult (Some DeadlineExceeded) ReturnCtxDone
               [EvCtxErr None; EvAttempt 0 (Some Sim.boom); EvNext 0 Second;
                EvWait Second DoneFired; EvCtxErr (Some DeadlineExceeded)]
               (Sim.mkWorld Sim.halves 500000000 (Some 500000000) 1))
            _ _); [|reflexivity].
  intros d w1 w2. simpl. unfold Sim.select, Sim.Err.
  destruct (Sim.expired w1) eqn:E1.
  - intros [= <-]. rewrite E1. discriminate.
  - destruct (Sim.deadline w1) as [dl|] eqn:Ed; [|discriminate].
    destruct (dl <=? Sim.clock w1 + Z.max 0 d); [|discriminate].
    intros [= <-]. unfold Sim.expired. simpl. rewrite Z.leb_refl.
    discriminate.
Defined.

(** ** Predicates that never refuse *)

Lemma count_predicate_app (l1 l2 : list event) :
  count_predicate (l1 ++ l2) =
    (count_predicate l1 + count_predicate l2)%nat.
Proof.
  unfold count_predicate. now rewrite filter_app, length_app.
Qed.

Lemma Run_nil_predicate {W : Type} (r : retrier W) (ctx : Context W)
  (f : AttemptFunc W) (attempt : Z) (err : option error) (w : W)
  (res : result W) :
  isRetryable r = None ->
  Run r ctx f attempt err w res ->
  count_predicate (trace res) = O.
Proof.
  intros Hnil.
  induction 1 as
    [attempt err w Hc
    |attempt err w w1 ce Hc Ectx
    |attempt err w w1 w2 Hc Ectx Ef
    |attempt err w w1 w2 w3 e Hc Ectx Ef Ev
    |attempt err w w1 w2 w3 w4 w5 w6 e d ce Hc Ectx Ef Ev Eb Es Ece
    |attempt err w w1 w2 w3 w4 w5 e d res Hc Ectx Ef Ev Eb Es Hrun IH];
    cbn [trace]; try reflexivity.
  - unfold verdict in Ev. rewrite Hnil in Ev. discriminate Ev.
  - unfold iteration, verdict_events. rewrite Hnil. reflexivity.
  - rewrite count_predicate_app, IH.
    unfold iteration, verdict_events. rewrite Hnil. reflexivity.
Qed.

(** X4.  A retrier without a predicate retries every failure and never
    consults one; the function [Do] of the package, whose predicate is the
    default one, retries every failure as well: neither ever returns from
    the statement that wraps an unretryable error, whatever the operation
    returns. *)
Theorem Do_retries_every_failure {FL : Float64} {W : Type}
  (getRand : W -> Rand) (setRand : Rand -> W -> W) (ctx : Context W)
  (f : AttemptFunc W) (fuel : nat) (w : W) (res : result W) :
  (forall r : retrier W,
     isRetryable r = None ->
     retrier_Do r ctx f fuel w = Some res ->
     exit res <> ReturnUnretryable /\ count_predicate (trace res) = O) /\
  (forall n : Z,
     Do getRand setRand ctx n f fuel w = Some res ->
     exit res <> ReturnUnretryable).
Proof.
  split.
  - intros r Hnil H. apply Do_loop_Run in H. split.
    + eapply Run_never_refused; [|exact H].
      intros e w'. unfold verdict. now rewrite Hnil.
    + eapply Run_nil_predicate; [exact Hnil|exact H].
  - intros n H. apply Do_loop_Run in H.
    eapply Run_never_refused; [|exact H].
    intros e w'. reflexivity.
Qed.

Lemma Do_retries_every_failure_witness :
  ReturnAllFailed <> ReturnUnretryable /\
  count_predicate
    [EvCtxErr None; EvAttempt 0 (Some Sim.boom); EvNext 0 Second;
     EvWait Second TimerFired] = O.
Proof.
  refine (proj1 (Do_retries_every_failure Sim.getRand Sim.setRand
                   Sim.background (Sim.failing Sim.boom) 2 (Sim.start None)
                   (mkResult (Some (all_attempts_failed (Some Sim.boom)))
                      ReturnAllFailed
                      [EvCtxErr None; EvAttempt 0 (Some Sim.boom);
                       EvNext 0 Second; EvWait Second TimerFired]
                      (Sim.mkWorld Sim.halves Second None 1)))
            (Sim.retrier_of 1 None) _ _); reflexivity.
Defined.

(** ** Bounded and unbounded loops *)

Section Bounds.

Context {W : Type}.
Variables (r : retrier W) (ctx : Context W) (f : AttemptFunc W).

Hypothesis Hlimit : maxAttempts r <> 0.
Hypothesis Hrange : maxAttempts r <= Int64.max_int.

(** With [k] iterations of fuel for at most [k] remaining attempts the
    loop ends, after consecutive attempts within the limit. *)
Lemma Do_loop_ends (k : nat) :
  forall (attempt : Z) (err : option error) (w : W),
    0 <= attempt ->
    maxAttempts r - attempt <= Z.of_nat k ->
    exists (res : result W) (m : nat),
      Do_loop r ctx f (S k) attempt err w = Some res /\
      attempt_indices (trace res) = count_from attempt m /\
      Z.of_nat m <= Z.max 0 (maxAttempts r - attempt).
Proof.
  induction k as [|k IH]; intros attempt err w H0 Hk.
  - exists (mkResult (Some (all_attempts_failed err)) ReturnAllFailed [] w).
    exists O. split; [|split; [reflexivity|lia]].
    apply Do_loop_done. unfold attempts_remain.
    apply orb_false_iff. split; [apply Z.eqb_neq|apply Z.ltb_ge]; lia.
  - destruct (attempts_remain r attempt) eqn:Hc.
    2:{ eexists. exists O. split; [now apply Do_loop_done|].
        split; [reflexivity|lia]. }
    assert (Hlt : attempt < maxAttempts r).
    { unfold attempts_remain in Hc. apply orb_true_iff in Hc.
      destruct Hc as [Hc|Hc]; [apply Z.eqb_eq in Hc; contradiction|].
      now apply Z.ltb_lt. }
    destruct (ctx_Err ctx w) as [[ce|] w1] eqn:Ectx.
    { eexists. exists O. split; [eapply Do_loop_canceled; eassumption|].
      split; [reflexivity|lia]. }
    destruct (f attempt w1) as [[e|] w2] eqn:Ef.
    2:{ eexists. exists 1%nat.
        split; [eapply Do_loop_success; eassumption|].
        split; [reflexivity|lia]. }
    destruct (verdict r e w2) as [[|] w3] eqn:Ev.
    2:{ eexists. exists 1%nat.
        split; [eapply Do_loop_unretryable; eassumption|].
        split; [reflexivity|lia]. }
    destruct (backoff r attempt w3) as [d w4] eqn:Eb.
    destruct (ctx_select ctx d w4) as [[|] w5] eqn:Es.
    + assert (Hincr : Int64.incr attempt = attempt + 1)
        by (apply (incr_below attempt (maxAttempts r)); lia).
      destruct (IH (attempt + 1) (Some e) w5) as [res [m [Hrun [Hidx Hm]]]];
        [lia|lia|].
      rewrite (Do_loop_retry r ctx f (S k) attempt err w w1 w2 w3 w4 w5 e d
                 Hc Ectx Ef Ev Eb Es).
      rewrite Hincr, Hrun. eexists. exists (S m).
      split; [reflexivity|]. cbn [emit trace]. split.
      * unfold attempt_indices in *.
        change (map fst
                  (attempts (iteration r attempt e d TimerFired ++ trace res))
                = count_from attempt (S m)).
        rewrite attempts_iteration. simpl. now rewrite Hidx.
      * lia.
    + destruct (ctx_Err ctx w5) as [ce w6] eqn:Ece.
      eexists. exists 1%nat.
      split; [eapply Do_loop_wait_canceled; eassumption|].
      split; [|lia].
      unfold attempt_indices. cbn [trace]. rewrite !attempts_app.
      destruct (attempts_verdict_events r e true) as [-> _]. reflexivity.
Qed.

End Bounds.

(** X5.  With a limit that is not 0 the loop always ends, within as many
    iterations as the limit: whatever the operation, the predicate, the
    backoff and the context do, [Do] returns, the operation has been
    invoked with the numbers 0, 1, 2, ... in a row, and at most
    [maxAttempts] times (not at all for a negative limit).  More fuel
    gives the same run. *)
Theorem Do_bounded_ends {W : Type} (r : retrier W) (ctx : Context W)
  (f : AttemptFunc W) (w : W) :
  maxAttempts r <> 0 ->
  maxAttempts r <= Int64.max_int ->
  exists (res : result W) (m : nat),
    retrier_Do r ctx f (S (Z.to_nat (maxAttempts r))) w = Some res /\
    attempt_indices (trace res) = count_from 0 m /\
    Z.of_nat m <= Z.max 0 (maxAttempts r) /\
    (forall (fuel : nat) (res' : result W),
       retrier_Do r ctx f fuel w = Some res' -> res' = res).
Proof.
  intros Hlimit Hrange.
  destruct (Do_loop_ends r ctx f Hlimit Hrange (Z.to_nat (maxAttempts r))
              0 None w) as [res [m [Hrun [Hidx Hm]]]]; [lia|lia|].
  exists res, m. repeat split.
  - exact Hrun.
  - exact Hidx.
  - lia.
  - intros fuel res' Hrun'.
    apply Do_loop_Run in Hrun. apply Do_loop_Run in Hrun'.
    exact (Run_unique r ctx f 0 None w res' res Hrun' Hrun).
Qed.

Lemma Do_bounded_ends_witness :
  exists (res : result Sim.world) (m : nat),
    retrier_Do (Sim.retrier_of 2 (Some Sim.always)) Sim.ctx
      (Sim.failing Sim.boom) 3 (Sim.start (Some (5 * Second))) = Some res /\
    attempt_indices (trace res) = count_from 0 m /\
    Z.of_nat m <= Z.max 0 2 /\
    (forall (fuel : nat) (res' : result Sim.world),
       retrier_Do (Sim.retrier_of 2 (Some Sim.always)) Sim.ctx
         (Sim.failing Sim.boom) fuel (Sim.start (Some (5 * Second))) =
         Some res' -> res' = res).
Proof.
  refine (Do_bounded_ends (Sim.retrier_of 2 (Some Sim.always)) Sim.ctx
            (Sim.failing Sim.boom) (Sim.start (Some (5 * Second))) _ _).
  - simpl. discriminate.
  - simpl. unfold Int64.max_int. lia.
Defined.

(** ** Success after failures *)

Section EventualSuccess.

Context {W : Type}.
Variables (r : retrier W) (ctx : Context W) (f : AttemptFunc W).
Variable k : nat.

Hypothesis Hfails :
  forall (n : Z) (w : W), 0 <= n < Z.of_nat k -> fst (f n w) <> None.
Hypothesis Hsucceeds : forall w : W, fst (f (Z.of_nat k) w) = None.
Hypothesis Hretry : forall (e : error) (w : W), fst (verdict r e w) = true.
Hypothesis Hlive : forall w : W, fst (ctx_Err ctx w) = None.
Hypothesis Htimer :
  forall (d : Duration) (w : W), fst (ctx_select ctx d w) = TimerFired.
Hypothesis Hroom : maxAttempts r = 0 \/ Z.of_nat k < maxAttempts r.
Hypothesis Hrange : Z.of_nat k <= Int64.max_int.

Lemma Do_loop_reaches_success (j : nat) :
  forall (attempt : Z) (err : option error) (w : W) (fuel : nat),
    0 <= attempt ->
    attempt + Z.of_nat j = Z.of_nat k ->
    (j < fuel)%nat ->
    exists res : result W,
      Do_loop r ctx f fuel attempt err w = Some res /\
      ret res = None /\
      exit res = ReturnNil /\
      attempt_indices (trace res) = count_from attempt (S j) /\
      count_next (trace res) = j /\
      count_waits (trace res) = j.
Proof.
  induction j as [|j IH]; intros attempt err w fuel H0 Hj Hfuel;
    (destruct fuel as [|fuel]; [lia|]);
    (assert (Hc : attempts_remain r attempt = true)
       by (unfold attempts_remain; apply orb_true_iff;
           destruct Hroom as [->|Hlt]; [now left|right; apply Z.ltb_lt; lia]));
    pose proof (Hlive w) as Hl;
    destruct (ctx_Err ctx w) as [ce w1] eqn:Ectx; simpl in Hl; subst ce.
  - assert (attempt = Z.of_nat k) by lia. subst attempt.
    pose proof (Hsucceeds w1) as Hs.
    destruct (f (Z.of_nat k) w1) as [o w2] eqn:Ef. simpl in Hs. subst o.
    eexists. split; [eapply Do_loop_success; eassumption|].
    repeat split.
  - pose proof (Hfails attempt w1) as Hf.
    destruct (f attempt w1) as [[e|] w2] eqn:Ef;
      [clear Hf|elim Hf; [lia|reflexivity]].
    pose proof (Hretry e w2) as Hv.
    destruct (verdict r e w2) as [b w3] eqn:Ev. simpl in Hv. subst b.
    destruct (backoff r attempt w3) as [d w4] eqn:Eb.
    pose proof (Htimer d w4) as Ht.
    destruct (ctx_select ctx d w4) as [s w5] eqn:Es. simpl in Ht. subst s.
    assert (Hincr : Int64.incr attempt = attempt + 1)
      by (apply (incr_below attempt (Z.of_nat k)); lia).
    destruct (IH (attempt + 1) (Some e) w5 fuel) as
      [res [Hrun [Hret [Hexit [Hidx [Hnext Hwaits]]]]]]; [lia|lia|lia|].
    rewrite (Do_loop_retry r ctx f fuel attempt err w w1 w2 w3 w4 w5 e d
               Hc Ectx Ef Ev Eb Es).
    rewrite Hincr, Hrun. eexists. split; [reflexivity|].
    cbn [emit ret exit trace].
    destruct (attempts_verdict_events r e true) as [Va [Vw Vn]].
    repeat split; try assumption.
    + unfold attempt_indices in *. rewrite !attempts_app, Va. simpl.
      now rewrite Hidx.
    + rewrite !count_next_app, Vn, Hnext. reflexivity.
    + rewrite !count_waits_app, Vw, Hwaits. reflexivity.
Qed.

End EventualSuccess.

(** X6.  When the operation fails at the attempts 0 to [k-1] with
    retryable errors and succeeds at attempt [k], the limit leaves room
    for attempt [k] (it is 0 or above [k]) and the context is never
    canceled, [Do] returns nil after exactly [k+1] invocations, numbered
    0 to [k], with exactly [k] calls of the backoff and [k] waits: no
    wait follows the success. *)
Theorem Do_succeeds_after_failures {W : Type} (r : retrier W)
  (ctx : Context W) (f : AttemptFunc W) (k : nat) (w : W) :
  (forall (n : Z) (w' : W), 0 <= n < Z.of_nat k -> fst (f n w') <> None) ->
  (forall w' : W, fst (f (Z.of_nat k) w') = None) ->
  (forall (e : error) (w' : W), fst (verdict r e w') = true) ->
  (forall w' : W, fst (ctx_Err ctx w') = None) ->
  (forall (d : Duration) (w' : W), fst (ctx_select ctx d w') = TimerFired) ->
  maxAttempts r = 0 \/ Z.of_nat k < maxAttempts r ->
  Z.of_nat k <= Int64.max_int ->
  exists res : result W,
    retrier_Do r ctx f (S k) w = Some res /\
    ret res = None /\
    exit res = ReturnNil /\
    attempt_indices (trace res) = count_from 0 (S k) /\
    count_next (trace res) = k /\
    count_waits (trace res) = k.
Proof.
  intros Hfails Hsucceeds Hretry Hlive Htimer Hroom Hrange.
  apply (Do_loop_reaches_success r ctx f k Hfails Hsucceeds Hretry Hlive
           Htimer Hroom Hrange k 0 None w (S k)); lia.
Qed.

Lemma Do_succeeds_after_failures_witness :
  exists res : result Sim.world,
    retrier_Do (Sim.retrier_of 3 (Some Sim.always)) Sim.background
      (Sim.succeeds_at 2) 3 (Sim.start None) = Some res /\
    ret res = None /\
    exit res = ReturnNil /\
    attempt_indices (trace res) = count_from 0 3 /\
    count_next (trace res) = 2%nat /\
    count_waits (trace res) = 2%nat.
Proof.
  refine (Do_succeeds_after_failures (Sim.retrier_of 3 (Some Sim.always))
            Sim.background (Sim.succeeds_at 2) 2 (Sim.start None)
            _ _ _ _ _ _ _).
  - intros n w' Hn. simpl.
    destruct (Z.eqb_spec n 2) as [->|Hne]; [lia|discriminate].
  - intros w'. reflexivity.
  - intros e w'. reflexivity.
  - intros w'. reflexivity.
  - intros d w'. reflexivity.
  - right. simpl. lia.
  - simpl. unfold Int64.max_int. lia.
Defined.

(** ** A loop without end *)

Section Forever.

Context {W : Type}.
Variables (r : retrier W) (ctx : Context W) (f : AttemptFunc W).

Hypothesis Hzero : maxAttempts r = 0.
Hypothesis Hfail : forall (n : Z) (w : W), fst (f n w) <> None.
Hypothesis Hretry : forall (e : error) (w : W), fst (verdict r e w) = true.
Hypothesis Hlive : forall w : W, fst (ctx_Err ctx w) = None.
Hypothesis Htimer :
  forall (d : Duration) (w : W), fst (ctx_select ctx d w) = TimerFired.

Lemma Run_never_ends (attempt : Z) (err : option error) (w : W)
  (res : result W) :
  ~ Run r ctx f attempt err w res.
Proof.
  induction 1 as
    [attempt err w Hc
    |attempt err w w1 ce Hc Ectx
    |attempt err w w1 w2 Hc Ectx Ef
    |attempt err w w1 w2 w3 e Hc Ectx Ef Ev
    |attempt err w w1 w2 w3 w4 w5 w6 e d ce Hc Ectx Ef Ev Eb Es Ece
    |attempt err w w1 w2 w3 w4 w5 e d res Hc Ectx Ef Ev Eb Es Hrun IH].
  - unfold attempts_remain in Hc. rewrite Hzero in Hc. discriminate Hc.
  - pose proof (Hlive w) as H. rewrite Ectx in H. discriminate H.
  - apply (Hfail attempt w1). now rewrite Ef.
  - pose proof (Hretry e w2) as H. rewrite Ev in H. discriminate H.
  - pose proof (Htimer d w4) as H. rewrite Es in H. discriminate H.
  - exact IH.
Qed.

End Forever.

(** X7.  With [maxAttempts = 0], an operation that fails at every
    invocation with retryable errors and a context that is never
    canceled, [Do] does not return: the loop is still running after any
    number of iterations. *)
Theorem Do_unbounded_runs_forever {W : Type} (r : retrier W)
  (ctx : Context W) (f : AttemptFunc W) :
  maxAttempts r = 0 ->
  (forall (n : Z) (w : W), fst (f n w) <> None) ->
  (forall (e : error) (w : W), fst (verdict r e w) = true) ->
  (forall w : W, fst (ctx_Err ctx w) = None) ->
  (forall (d : Duration) (w : W), fst (ctx_select ctx d w) = TimerFired) ->
  forall (fuel : nat) (w : W), retrier_Do r ctx f fuel w = None.
Proof.
  intros Hzero Hfail Hretry Hlive Htimer fuel w.
  destruct (retrier_Do r ctx f fuel w) as [res|] eqn:E; [|reflexivity].
  apply Do_loop_Run in E.
  elim (Run_never_ends r ctx f Hzero Hfail Hretry Hlive Htimer 0 None w res E).
Qed.

Lemma Do_unbounded_runs_forever_witness :
  retrier_Do (Sim.retrier_of 0 None) Sim.background (Sim.failing Sim.boom)
    50 (Sim.start None) = None.
Proof.
  refine (Do_unbounded_runs_forever (Sim.retrier_of 0 None) Sim.background
            (Sim.failing Sim.boom) _ _ _ _ _ 50%nat (Sim.start None)).
  - reflexivity.
  - intros n w. simpl. discriminate.
  - intros e w. reflexivity.
  - intros w. reflexivity.
  - intros d w. reflexivity.
Defined.

(** ** Options *)

Section Options.

Context {FL : Float64} {W : Type}.
Variables (getRand : W -> Rand) (setRand : Rand -> W -> W).

Lemma fold_keeps_limit (opts : list (RetryOption W)) :
  Forall keeps_limit opts ->
  forall r : retrier W,
    maxAttempts (fold_left (fun r opt => opt r) opts r) = maxAttempts r.
Proof.
  induction 1 as [|opt opts Hopt _ IH]; intros r; [reflexivity|].
  simpl. now rewrite IH, Hopt.
Qed.

End Options.

(** X8.  [New] applies its options in order over the defaults: the limit
    is the one of the last [WithMaxAttempts], whatever options on the
    backoff or on the predicate come before or after it, and the default
    limit of 3 when no option sets one. *)
Theorem New_limit {FL : Float64} {W : Type} (getRand : W -> Rand)
  (setRand : Rand -> W -> W) :
  (forall (b : BackoffFunc W) (p : option (IsRetryableFunc W)),
     keeps_limit (WithBackoff b) /\ keeps_limit (WithIsRetryableFunc p)) /\
  (forall (opts others : list (RetryOption W)) (n : Z),
     Forall keeps_limit others ->
     maxAttempts (New getRand setRand (opts ++ WithMaxAttempts n :: others))
       = n) /\
  (forall others : list (RetryOption W),
     Forall keeps_limit others ->
     maxAttempts (New getRand setRand others) = 3).
Proof.
  split; [|split].
  - intros b p. split; intros r; reflexivity.
  - intros opts others n Hothers. unfold New.
    rewrite fold_left_app. cbn [fold_left].
    etransitivity; [apply (fold_keeps_limit others Hothers)|reflexivity].
  - intros others Hothers. unfold New.
    etransitivity; [apply (fold_keeps_limit others Hothers)|reflexivity].
Qed.

Lemma New_limit_witness :
  maxAttempts
    (New Sim.getRand Sim.setRand
       ([WithMaxAttempts 7; WithBackoff Sim.one_second] ++
        WithMaxAttempts 5 :: [WithIsRetryableFunc None])) = 5 /\
  maxAttempts
    (New Sim.getRand Sim.setRand [WithBackoff Sim.one_second]) = 3.
Proof.
  destruct (New_limit Sim.getRand Sim.setRand) as [Hk [Hlast Hdefault]].
  split.
  - apply Hlast. constructor; [|constructor].
    apply (Hk Sim.one_second None).
  - apply Hdefault. constructor; [|constructor].
    apply (Hk Sim.one_second None).
Defined.

(** ** Errors *)

Lemma As_Unretryable_chain :
  forall e : error,
    (match As_Unretryable e with Some _ => true | None => false end) =
    existsb is_unretryable_error (chain e).
Proof.
  fix IH 1. intros e.
  destruct e as [id msg| | |err|msg err]; try reflexivity.
  simpl. destruct err as [c|]; [|reflexivity].
  rewrite (IH c). reflexivity.
Qed.

(** X9.  [IsUnretryable] answers whether some error of the chain of
    [Unwrap] is a pointer to an [UnretryableError]: it is false on nil,
    and wrapping with [fmt.Errorf] and [%w], the error that [Do]
    returns on exhaustion included, does not change the answer. *)
Theorem IsUnretryable_walks_the_chain :
  IsUnretryable None = false /\
  (forall e : error,
     IsUnretryable (Some e) = existsb is_unretryable_error (chain e)) /\
  (forall (msg : string) (err : option error),
     IsUnretryable (Some (wrapError msg err)) = IsUnretryable err) /\
  (forall err : option error,
     IsUnretryable (Some (all_attempts_failed err)) = IsUnretryable err).
Proof.
  split; [reflexivity|]. split; [|split].
  - intros e. unfold IsUnretryable. apply As_Unretryable_chain.
  - intros msg [c|]; reflexivity.
  - intros [c|]; reflexivity.
Qed.

(** X10.  [newUnretryableError] keeps nil as nil; on an error it builds
    an error that is not nil, that [IsUnretryable] recognises, of which
    [Unwrap] is the error given, and whose message is the message of the
    cause after "unretryable error: ". *)
Theorem newUnretryableError_round_trip :
  newUnretryableError None = None /\
  (forall e : error,
     exists u : error,
       newUnretryableError (Some e) = Some u /\
       Unwrap u = Some e /\
       IsUnretryable (Some u) = true /\
       Error u = ("unretryable error: " ++ Error e)%string).
Proof.
  split; [reflexivity|].
  intros e. exists (UnretryableError (Some e)). repeat split.
Qed.

(** ** More on the backoff strategies *)

Section Uncapped.

Context {FL : Float64}.

Lemma LinearBackoff_Next_uncapped (l : LinearBackoff) (attempt : Z)
  (g : Rand) :
  linMax l <= 0 ->
  LinearBackoff_Next l attempt g =
    addJitter (linear_delay l attempt) (linJitter l) g.
Proof.
  intros Hmax. unfold LinearBackoff_Next.
  apply Z.ltb_ge in Hmax. now rewrite Hmax.
Qed.

Lemma ExponentialBackoff_Next_uncapped (e : ExponentialBackoff)
  (attempt : Z) (g : Rand) :
  expMax e <= 0 ->
  ExponentialBackoff_Next e attempt g =
    addJitter (toInt (exponential_delay e attempt)) (expJitter e) g.
Proof.
  intros Hmax. unfold ExponentialBackoff_Next.
  apply Z.ltb_ge in Hmax. now rewrite Hmax.
Qed.

(** One call of [addJitter] reads at most one draw. *)
Lemma addJitter_draws (d : Duration) (jitter : F) (g : Rand) :
  draws (snd (addJitter d jitter g)) = draws g /\
  pos (snd (addJitter d jitter g)) =
    (if jitter_disabled jitter then pos g else S (pos g)).
Proof.
  unfold addJitter, jitter_disabled.
  destruct (fle jitter (ofInt 0) || fge jitter (ofInt 1)); now split.
Qed.

End Uncapped.





(** X13.  The linear backoff never shrinks: with jitter off, a step that
    is not negative and no overflow up to the later attempt, a later
    attempt waits at least as long as an earlier one, with or without a
    cap. *)
Theorem LinearBackoff_Next_monotone {FL : Float64} (l : LinearBackoff)
  (n m : Z) (g g' : Rand) :
  jitter_disabled (linJitter l) = true ->
  0 <= linStep l ->
  0 <= n <= m ->
  Int64.in_range (linBase l) ->
  Int64.in_range (m * linStep l) ->
  Int64.in_range (linBase l + m * linStep l) ->
  fst (Next l n g) <= fst (Next l m g').
Proof.
  intros Hj Hstep Hnm Hb Hm Ha.
  assert (Hle : n * linStep l <= m * linStep l) by nia.
  assert (H0 : 0 <= n * linStep l) by nia.
  unfold Int64.in_range, Int64.min_int, Int64.max_int in *.
  assert (Hdn : linear_delay l n = linBase l + n * linStep l).
  { apply linear_delay_in_range;
      unfold Int64.in_range, Int64.min_int, Int64.max_int; lia. }
  assert (Hdm : linear_delay l m = linBase l + m * linStep l).
  { apply linear_delay_in_range;
      unfold Int64.in_range, Int64.min_int, Int64.max_int; lia. }
  simpl. destruct (Z.ltb_spec 0 (linMax l)) as [Hmax|Hmax].
  - rewrite !LinearBackoff_Next_min by assumption. simpl. lia.
  - rewrite !LinearBackoff_Next_uncapped by assumption.
    rewrite !addJitter_disabled by assumption. simpl. lia.
Qed.

Lemma LinearBackoff_Next_monotone_witness :
  fst (Next ExactCases.linear 2 ExactCases.source) <=
  fst (Next ExactCases.linear 30 ExactCases.zeros).
Proof.
  apply (@LinearBackoff_Next_monotone Exact ExactCases.linear 2 30);
    vm_compute; try reflexivity; try discriminate; split; discriminate.
Defined.

Section ExactBackoff.

Context {FL : Float64}.
Variable val : F -> Q.
Context {EA : ExactArith FL val}.

Lemma exponential_delay_monotone (e : ExponentialBackoff) (n m : Z) :
  0 <= expBase e ->
  (1 <= val (expFactor e))%Q ->
  n <= m ->
  (inject_Z (expBase e) * Qpower (val (expFactor e)) n <=
   inject_Z (expBase e) * Qpower (val (expFactor e)) m)%Q.
Proof.
  intros Hb Hf Hnm.
  assert (HB : (0 <= inject_Z (expBase e))%Q).
  { change 0%Q with (inject_Z 0). now rewrite <- Zle_Qle. }
  pose proof (Qpower_le_compat_l (val (expFactor e)) n m Hnm Hf) as Hp.
  nra.
Qed.

Lemma ExponentialBackoff_Next_exact (e : ExponentialBackoff) (n : Z)
  (g : Rand) :
  jitter_disabled (expJitter e) = true ->
  fst (ExponentialBackoff_Next e n g) =
    let d := Rational.trunc
               (inject_Z (expBase e) * Qpower (val (expFactor e)) n) in
    if 0 <? expMax e then Z.min d (expMax e) else d.
Proof.
  intros Hj. cbv zeta. destruct (Z.ltb_spec 0 (expMax e)) as [Hmax|Hmax].
  - now rewrite (ExponentialBackoff_Next_min val) by assumption.
  - rewrite ExponentialBackoff_Next_uncapped by assumption.
    rewrite addJitter_disabled by assumption. simpl.
    rewrite val_toInt.
    now rewrite (trunc_comp _ _ (exponential_delay_val val e n)).
Qed.

(** A jittered delay between 0 and a cap stays between 0 and the cap
    stretched by the jitter fraction. *)
Lemma addJitter_within (d cap : Duration) (jitter : F) (g : Rand) :
  0 <= d <= cap ->
  (0 < val jitter)%Q -> (val jitter < 1)%Q ->
  (0 <= val (draws g (pos g)))%Q -> (val (draws g (pos g)) < 1)%Q ->
  0 <= fst (addJitter d jitter g) <=
    Rational.trunc (inject_Z cap * (1 + val jitter)).
Proof.
  intros [Hd0 Hdc] Hj0 Hj1 Hr0 Hr1.
  destruct (addJitter_between val d jitter g Hj0 Hj1 Hr0 Hr1) as [Hpos _].
  destruct (Hpos Hd0) as [Hlo Hhi].
  assert (HD : (0 <= inject_Z d)%Q).
  { change 0%Q with (inject_Z 0). now rewrite <- Zle_Qle. }
  assert (HC : (inject_Z d <= inject_Z cap)%Q) by now rewrite <- Zle_Qle.
  split.
  - transitivity (Rational.trunc (inject_Z d * (1 - val jitter))); [|exact Hlo].
    change 0 with (Rational.trunc 0). apply trunc_le. nra.
  - transitivity (Rational.trunc (inject_Z d * (1 + val jitter)));
      [exact Hhi|].
    apply trunc_le. nra.
Qed.

End ExactBackoff.






